(** * gui_image_encryption_tool: authenticated file encryption

    A shallow embedding of [gui_image_encryption_tool.py]:

    - [Module Bytes]: byte strings and the bit operations on them;
    - [Module Cipher]: the authenticated cipher the program obtains from its
      cryptography dependency ([cipher.encrypt] / [cipher.decrypt]), whose
      code is not part of the repository and is modelled from the
      specification's token layout and seal/open algorithms;
    - [Module Sha256], [Module Aes]: HMAC-SHA256, the MAC the
      specification names, and AES-128, the block cipher of the Fernet
      format, to run the cipher on concrete tokens;
    - [Module Base64]: the URL-safe base64 text in which the dependency
      hands tokens to the program;
    - [Module App]: the program's own functions ([_generate_key],
      [_load_key], [_get_fernet], [encrypt_file], [decrypt_file]) over an
      explicit world (files as the operating system identifies them,
      whatever path names them, failures of opening a file, entropy,
      dialogs, message boxes), with Python exceptions as a sum type;
    - [Module Gui]: the window ([_build_gui], [open_link]) and the session
      ([main]) over a desktop, with the clicks of the user as input.  *)

From Stdlib Require Import NArith List String DecimalString Lia Bool.
From Stdlib Require Import ZifyNat ZifyN.
From Stdlib.Strings Require Import Byte.
From stdpp Require Import base option list gmap strings.
Import ListNotations.

Set Default Proof Using "Type".

(* ===================================================================== *)
(** ** Byte strings *)
(* ===================================================================== *)

Module Bytes.

Definition bytes := list byte.

#[global] Instance byte_eq_decision : EqDecision byte := Byte.byte_eq_dec.

(** The byte with numeric value [n mod 256]. *)
Definition byte_of_N (n : N) : byte :=
  match Byte.of_N (n mod 256) with
  | Some b => b
  | None => x00
  end.

Definition byte_of_nat (n : nat) : byte := byte_of_N (N.of_nat n).

(** Bitwise exclusive or of two bytes. *)
Definition byte_xor (a b : byte) : byte :=
  byte_of_N (N.lxor (Byte.to_N a) (Byte.to_N b)).

(** Exclusive or of two byte strings, position by position. *)
Definition xor_bytes (a b : bytes) : bytes := zip_with byte_xor a b.

(** Big-endian encoding of [t] on [n] bytes (the value wraps modulo
    [256 ^ n]) and its inverse. *)
Fixpoint to_be (n : nat) (t : N) : bytes :=
  match n with
  | O => []
  | S n' => to_be n' (t / 256) ++ [byte_of_N (t mod 256)]
  end.

Definition from_be (l : bytes) : N :=
  fold_left (fun acc b => (acc * 256 + Byte.to_N b)%N) l 0%N.

Definition bytes_eqb (a b : bytes) : bool := bool_decide (a = b).

End Bytes.
Import Bytes.

(* ===================================================================== *)
(** ** The authenticated cipher *)
(* ===================================================================== *)

Module Cipher.

(** Modelled from the spec: the five failure kinds of the error taxonomy
    (section 7), which the absent cipher and key store signal. *)
Inductive error_kind :=
| StorageError
| CorruptKeyError
| AuthenticationError
| FormatError
| ImplementationInvariantError.

(** Modelled from the spec: the cryptographic work the absent
    [cipher.decrypt] performs, in the order it happens. *)
Inductive crypto_op :=
| MacVerify
| BlockDecrypt.

(** Modelled from the spec: the primitives the absent cipher is built
    from.  The specification names a block cipher in CBC mode, HMAC-SHA256
    and a version marker without fixing their values; they are parameters
    of the model. *)
Record primitives := {
  VERSION : byte;                       (* the format/version marker *)
  E : bytes -> bytes -> bytes;          (* block encryption, key first *)
  D : bytes -> bytes -> bytes;          (* block decryption, key first *)
  hmac : bytes -> bytes -> bytes        (* tag of a message, key first *)
}.

(** Modelled from the spec: the field sizes of the token layout
    (section 3) of the absent cipher, in bytes. *)
Definition BLOCK : nat := 16.
Definition KEY_LEN : nat := 32.
Definition TS_LEN : nat := 8.
Definition NONCE_LEN : nat := 16.
Definition TAG_LEN : nat := 32.
Definition HEADER_LEN : nat := 1 + TS_LEN + NONCE_LEN.

(** Modelled from the spec: what the absent cipher accepts as a Key, a
    fixed-length secret of 32 bytes. *)
Definition valid_key (k : bytes) : Prop := length k = KEY_LEN.

(** Modelled from the spec: "the Key's signing half" and "the Key's
    encryption half", as the absent cipher splits the key.  The
    specification does not say which half comes first; the signing half is
    taken to be the first one, and nothing proved below depends on the
    order beyond the choice of the example keys. *)
Definition sign_half (k : bytes) : bytes := take 16 k.
Definition enc_half (k : bytes) : bytes := drop 16 k.

(** Modelled from the spec: the padding step of the absent
    [cipher.encrypt], "plaintext is padded (PKCS7-style) to the block size
    before encryption": [n] bytes of value [n] are appended, with
    [1 <= n <= BLOCK]. *)
Definition pad (p : bytes) : bytes :=
  let n := BLOCK - length p mod BLOCK in
  p ++ replicate n (byte_of_nat n).

(** Modelled from the spec: the unpadding step of the absent
    [cipher.decrypt], "strip and validate padding". *)
Definition unpad (q : bytes) : option bytes :=
  match last q with
  | None => None
  | Some b =>
      let n := Byte.to_nat b in
      if (1 <=? n) && (n <=? BLOCK) && (n <=? length q)
         && bytes_eqb (drop (length q - n) q) (replicate n b)
      then Some (take (length q - n) q)
      else None
  end.

Section Scheme.
Variable P : primitives.

(** Modelled from the spec: the encryption step of the absent
    [cipher.encrypt], "encrypt with a block cipher in CBC mode under the
    key's encryption material and the nonce": each block is xored with the
    previous ciphertext block (the nonce for the first) and then
    encrypted.  [n] is the number of blocks. *)
Fixpoint cbc_encrypt (n : nat) (ek prev data : bytes) : bytes :=
  match n with
  | O => []
  | S n' =>
      let c := E P ek (xor_bytes (take BLOCK data) prev) in
      c ++ cbc_encrypt n' ek c (drop BLOCK data)
  end.

(** Modelled from the spec: the decryption step of the absent
    [cipher.decrypt], "decrypt with the block cipher using the embedded
    nonce", the inverse of CBC encryption. *)
Fixpoint cbc_decrypt (n : nat) (ek prev data : bytes) : bytes :=
  match n with
  | O => []
  | S n' =>
      let c := take BLOCK data in
      xor_bytes (D P ek c) prev ++ cbc_decrypt n' ek c (drop BLOCK data)
  end.

(** What is asked of the primitives: the block cipher maps a block to a
    block and decryption undoes encryption, under a 16-byte key; the MAC
    under a 16-byte key is [TAG_LEN] bytes long. *)
Definition block_cipher_length : Prop :=
  forall ek b, length ek = 16 -> length b = BLOCK ->
               length (E P ek b) = BLOCK.
Definition block_cipher_inverse : Prop :=
  forall ek b, length ek = 16 -> length b = BLOCK ->
               D P ek (E P ek b) = b.
Definition mac_length : Prop :=
  forall sk m, length sk = 16 -> length (hmac P sk m) = TAG_LEN.

(** Modelled from the spec: field 4 of the token of the absent
    [cipher.encrypt], the padded plaintext, encrypted. *)
Definition ciphertext (k nonce p : bytes) : bytes :=
  cbc_encrypt (length (pad p) / BLOCK) (enc_half k) nonce (pad p).

(** Modelled from the spec: fields 1-4 of the token of the absent
    [cipher.encrypt]: version, timestamp (8 bytes, big-endian), nonce,
    ciphertext. *)
Definition token_body (k : bytes) (ts : N) (nonce p : bytes) : bytes :=
  VERSION P :: to_be TS_LEN ts ++ nonce ++ ciphertext k nonce p.

(** Modelled from the spec: [seal(key, plaintext) -> Token], the absent
    [cipher.encrypt].  The fresh nonce and the timestamp, which the
    specification draws from the random source and the clock, are
    explicit arguments. *)
Definition seal (k : bytes) (ts : N) (nonce p : bytes) : bytes :=
  let body := token_body k ts nonce p in
  body ++ hmac P (sign_half k) body.

(** Modelled from the spec: [open(key, token) -> plaintext], the absent
    [cipher.decrypt], together with the log of the cryptographic work
    done.  The version marker is parsed first; a token too short for
    its fixed fields is malformed; the tag is verified before anything
    is decrypted; a failure after a valid tag (a ciphertext that is not
    a whole number of blocks, or malformed padding) is reported as
    [ImplementationInvariantError]. *)
Definition open_log (k token : bytes)
  : list crypto_op * (error_kind + bytes) :=
  match token with
  | [] => ([], inl FormatError)
  | v :: _ =>
      if negb (bool_decide (v = VERSION P)) then ([], inl FormatError)
      else if length token <? HEADER_LEN + TAG_LEN
      then ([], inl FormatError)
      else
        let body := take (length token - TAG_LEN) token in
        let tag := drop (length token - TAG_LEN) token in
        if negb (bytes_eqb (hmac P (sign_half k) body) tag)
        then ([MacVerify], inl AuthenticationError)
        else
          let iv := take NONCE_LEN (drop (1 + TS_LEN) body) in
          let ct := drop HEADER_LEN body in
          if negb (length ct mod BLOCK =? 0)
          then ([MacVerify], inl ImplementationInvariantError)
          else
            let padded :=
              cbc_decrypt (length ct / BLOCK) (enc_half k) iv ct in
            ([MacVerify; BlockDecrypt],
             match unpad padded with
             | Some p => inr p
             | None => inl ImplementationInvariantError
             end)
  end.

(** Modelled from the spec: the result of the absent [cipher.decrypt]. *)
Definition open (k token : bytes) : error_kind + bytes :=
  snd (open_log k token).

End Scheme.

End Cipher.

(* ===================================================================== *)
(** ** The MAC of the specification *)
(* ===================================================================== *)

Module Sha256.
Local Open Scope N_scope.

(** Modelled from the spec: the hash of the MAC the specification names,
    SHA-256 (FIPS 180-4), on 32-bit words held in [N]. *)
Definition WORD : N := 2 ^ 32.
Definition add (x y : N) : N := (x + y) mod WORD.
Definition rotr (n x : N) : N :=
  N.lor (N.shiftr x n) (N.shiftl x (32 - n) mod WORD).
Definition shr (n x : N) : N := N.shiftr x n.
Definition lnot (x : N) : N := N.lxor x (WORD - 1).

Definition Ch (x y z : N) : N := N.lxor (N.land x y) (N.land (lnot x) z).
Definition Maj (x y z : N) : N :=
  N.lxor (N.lxor (N.land x y) (N.land x z)) (N.land y z).
Definition Sigma0 (x : N) : N :=
  N.lxor (N.lxor (rotr 2 x) (rotr 13 x)) (rotr 22 x).
Definition Sigma1 (x : N) : N :=
  N.lxor (N.lxor (rotr 6 x) (rotr 11 x)) (rotr 25 x).
Definition sigma0 (x : N) : N :=
  N.lxor (N.lxor (rotr 7 x) (rotr 18 x)) (shr 3 x).
Definition sigma1 (x : N) : N :=
  N.lxor (N.lxor (rotr 17 x) (rotr 19 x)) (shr 10 x).

(** The first [n] primes, by trial division: [fuel] candidates from [c]
    on are tried. *)
Fixpoint primes_from (fuel n : nat) (c : N) (found : list N) : list N :=
  match fuel, n with
  | S fuel', S n' =>
      if forallb (fun q => negb (c mod q =? 0)) found
      then primes_from fuel' n' (c + 1) (found ++ [c])
      else primes_from fuel' n (c + 1) found
  | _, _ => found
  end.
Definition primes (n : nat) : list N := primes_from 400 n 2 [].

(** The integer cube root, bit by bit from bit [b] down. *)
Fixpoint cube_root (b : nat) (r x : N) : N :=
  let r' := r + 2 ^ N.of_nat b in
  let r'' := if r' * r' * r' <=? x then r' else r in
  match b with
  | O => r''
  | S b' => cube_root b' r'' x
  end.

(** The round constants: the first 32 bits of the fractional parts of
    the cube roots of the first 64 primes. *)
Definition K : list N :=
  Eval vm_compute in
    map (fun q => cube_root 40 0 (q * 2 ^ 96) mod WORD) (primes 64).

(** The state of the hash: eight words. *)
Record state := State { ha : N; hb : N; hc : N; hd : N;
                        he : N; hf : N; hg : N; hh : N }.

(** The initial state: the first 32 bits of the fractional parts of the
    square roots of the first 8 primes. *)
Definition root_word (i : nat) : N :=
  N.sqrt (primes 8 !!! i * 2 ^ 64) mod WORD.
Definition H0 : state :=
  Eval vm_compute in
    State (root_word 0) (root_word 1) (root_word 2) (root_word 3)
      (root_word 4) (root_word 5) (root_word 6) (root_word 7).

(** The message schedule of one block: the sixteen words of the block,
    then forty-eight words each computed from the sixteen before it.
    [win] holds the last sixteen words, oldest first. *)
Fixpoint extend (n : nat) (win : list N) : list N :=
  match n with
  | O => []
  | S n' =>
      let w := add (add (sigma1 (win !!! 14%nat)) (win !!! 9%nat))
                 (add (sigma0 (win !!! 1%nat)) (win !!! 0%nat)) in
      w :: extend n' (drop 1 win ++ [w])
  end.

Fixpoint words (n : nat) (block : bytes) : list N :=
  match n with
  | O => []
  | S n' => from_be (take 4 block) :: words n' (drop 4 block)
  end.

Definition schedule (block : bytes) : list N :=
  let w16 := words 16 block in
  w16 ++ extend 48 w16.

Definition round (s : state) (kw : N * N) : state :=
  let t1 := add (add (add (hh s) (Sigma1 (he s)))
                   (add (Ch (he s) (hf s) (hg s)) (fst kw))) (snd kw) in
  let t2 := add (Sigma0 (ha s)) (Maj (ha s) (hb s) (hc s)) in
  State (add t1 t2) (ha s) (hb s) (hc s) (add (hd s) t1) (he s) (hf s)
    (hg s).

Definition compress (s : state) (block : bytes) : state :=
  let r := fold_left round (zip K (schedule block)) s in
  State (add (ha s) (ha r)) (add (hb s) (hb r)) (add (hc s) (hc r))
    (add (hd s) (hd r)) (add (he s) (he r)) (add (hf s) (hf r))
    (add (hg s) (hg r)) (add (hh s) (hh r)).

(** Padding: a one bit, zero bits, and the length of the message in bits
    on eight bytes, up to a whole number of 64-byte blocks. *)
Definition padding (len : nat) : bytes :=
  x80 :: replicate ((119 - len mod 64) mod 64) x00
    ++ to_be 8 (8 * N.of_nat len).

Fixpoint blocks (n : nat) (s : state) (data : bytes) : state :=
  match n with
  | O => s
  | S n' => blocks n' (compress s (take 64 data)) (drop 64 data)
  end.

Definition digest (s : state) : bytes :=
  to_be 4 (ha s) ++ to_be 4 (hb s) ++ to_be 4 (hc s) ++ to_be 4 (hd s)
    ++ to_be 4 (he s) ++ to_be 4 (hf s) ++ to_be 4 (hg s) ++ to_be 4 (hh s).

Definition sha256 (m : bytes) : bytes :=
  let padded := m ++ padding (length m) in
  digest (blocks (length padded / 64) H0 padded).

(** Modelled from the spec: the MAC the specification names, HMAC
    (RFC 2104) over SHA-256, key first. *)
Definition hmac_key (key : bytes) : bytes :=
  let k := if (64 <? length key)%nat then sha256 key else key in
  k ++ replicate (64 - length k) x00.

Definition hmac_sha256 (key m : bytes) : bytes :=
  let k := hmac_key key in
  sha256 (map (byte_xor x5c) k ++ sha256 (map (byte_xor x36) k ++ m)).

End Sha256.

(* ===================================================================== *)
(** ** The block cipher of the Fernet format *)
(* ===================================================================== *)

Module Aes.

#[global] Instance byte_inhabited : Inhabited byte := populate x00.

(** The block cipher of the Fernet format, AES with a 128-bit key
    (FIPS 197).  A block and a round key are sixteen bytes, the state
    column by column. *)
Definition SBOX : bytes :=
  [
    x63; x7c; x77; x7b; xf2; x6b; x6f; xc5; x30; x01; x67; x2b;
    xfe; xd7; xab; x76; xca; x82; xc9; x7d; xfa; x59; x47; xf0;
    xad; xd4; xa2; xaf; x9c; xa4; x72; xc0; xb7; xfd; x93; x26;
    x36; x3f; xf7; xcc; x34; xa5; xe5; xf1; x71; xd8; x31; x15;
    x04; xc7; x23; xc3; x18; x96; x05; x9a; x07; x12; x80; xe2;
    xeb; x27; xb2; x75; x09; x83; x2c; x1a; x1b; x6e; x5a; xa0;
    x52; x3b; xd6; xb3; x29; xe3; x2f; x84; x53; xd1; x00; xed;
    x20; xfc; xb1; x5b; x6a; xcb; xbe; x39; x4a; x4c; x58; xcf;
    xd0; xef; xaa; xfb; x43; x4d; x33; x85; x45; xf9; x02; x7f;
    x50; x3c; x9f; xa8; x51; xa3; x40; x8f; x92; x9d; x38; xf5;
    xbc; xb6; xda; x21; x10; xff; xf3; xd2; xcd; x0c; x13; xec;
    x5f; x97; x44; x17; xc4; xa7; x7e; x3d; x64; x5d; x19; x73;
    x60; x81; x4f; xdc; x22; x2a; x90; x88; x46; xee; xb8; x14;
    xde; x5e; x0b; xdb; xe0; x32; x3a; x0a; x49; x06; x24; x5c;
    xc2; xd3; xac; x62; x91; x95; xe4; x79; xe7; xc8; x37; x6d;
    x8d; xd5; x4e; xa9; x6c; x56; xf4; xea; x65; x7a; xae; x08;
    xba; x78; x25; x2e; x1c; xa6; xb4; xc6; xe8; xdd; x74; x1f;
    x4b; xbd; x8b; x8a; x70; x3e; xb5; x66; x48; x03; xf6; x0e;
    x61; x35; x57; xb9; x86; xc1; x1d; x9e; xe1; xf8; x98; x11;
    x69; xd9; x8e; x94; x9b; x1e; x87; xe9; xce; x55; x28; xdf;
    x8c; xa1; x89; x0d; xbf; xe6; x42; x68; x41; x99; x2d; x0f;
    xb0; x54; xbb; x16 ].

Definition INV_SBOX : bytes :=
  [
    x52; x09; x6a; xd5; x30; x36; xa5; x38; xbf; x40; xa3; x9e;
    x81; xf3; xd7; xfb; x7c; xe3; x39; x82; x9b; x2f; xff; x87;
    x34; x8e; x43; x44; xc4; xde; xe9; xcb; x54; x7b; x94; x32;
    xa6; xc2; x23; x3d; xee; x4c; x95; x0b; x42; xfa; xc3; x4e;
    x08; x2e; xa1; x66; x28; xd9; x24; xb2; x76; x5b; xa2; x49;
    x6d; x8b; xd1; x25; x72; xf8; xf6; x64; x86; x68; x98; x16;
    xd4; xa4; x5c; xcc; x5d; x65; xb6; x92; x6c; x70; x48; x50;
    xfd; xed; xb9; xda; x5e; x15; x46; x57; xa7; x8d; x9d; x84;
    x90; xd8; xab; x00; x8c; xbc; xd3; x0a; xf7; xe4; x58; x05;
    xb8; xb3; x45; x06; xd0; x2c; x1e; x8f; xca; x3f; x0f; x02;
    xc1; xaf; xbd; x03; x01; x13; x8a; x6b; x3a; x91; x11; x41;
    x4f; x67; xdc; xea; x97; xf2; xcf; xce; xf0; xb4; xe6; x73;
    x96; xac; x74; x22; xe7; xad; x35; x85; xe2; xf9; x37; xe8;
    x1c; x75; xdf; x6e; x47; xf1; x1a; x71; x1d; x29; xc5; x89;
    x6f; xb7; x62; x0e; xaa; x18; xbe; x1b; xfc; x56; x3e; x4b;
    xc6; xd2; x79; x20; x9a; xdb; xc0; xfe; x78; xcd; x5a; xf4;
    x1f; xdd; xa8; x33; x88; x07; xc7; x31; xb1; x12; x10; x59;
    x27; x80; xec; x5f; x60; x51; x7f; xa9; x19; xb5; x4a; x0d;
    x2d; xe5; x7a; x9f; x93; xc9; x9c; xef; xa0; xe0; x3b; x4d;
    xae; x2a; xf5; xb0; xc8; xeb; xbb; x3c; x83; x53; x99; x61;
    x17; x2b; x04; x7e; xba; x77; xd6; x26; xe1; x69; x14; x63;
    x55; x21; x0c; x7d ].

Definition sub_byte (b : byte) : byte := SBOX !!! Byte.to_nat b.
Definition inv_sub_byte (b : byte) : byte := INV_SBOX !!! Byte.to_nat b.

(** Multiplication by x in GF(2^8). *)
Definition xtime (b : byte) : byte :=
  let n := Byte.to_N b in
  byte_of_N (if (n <? 128)%N then 2 * n else N.lxor (2 * n - 256) 27).

Definition mul2 := xtime.
Definition mul3 (b : byte) : byte := byte_xor (xtime b) b.
Definition mul9 (b : byte) : byte := byte_xor (xtime (xtime (xtime b))) b.
Definition mul11 (b : byte) : byte :=
  byte_xor (byte_xor (xtime (xtime (xtime b))) (xtime b)) b.
Definition mul13 (b : byte) : byte :=
  byte_xor (byte_xor (xtime (xtime (xtime b))) (xtime (xtime b))) b.
Definition mul14 (b : byte) : byte :=
  byte_xor (byte_xor (xtime (xtime (xtime b))) (xtime (xtime b)))
    (xtime b).

Definition xor4 (a b c d : byte) : byte :=
  byte_xor (byte_xor (byte_xor a b) c) d.

(** Byte [r] of column [c] of a state. *)
Definition at_ (s : bytes) (r c : nat) : byte := s !!! (4 * c + r).

(** A state from its bytes, given by row and column. *)
Definition build (f : nat -> nat -> byte) : bytes :=
  map (fun i => f (i mod 4) (i / 4)) (seq 0 16).

Definition sub_bytes (s : bytes) : bytes :=
  build (fun r c => sub_byte (at_ s r c)).
Definition inv_sub_bytes (s : bytes) : bytes :=
  build (fun r c => inv_sub_byte (at_ s r c)).

Definition shift_rows (s : bytes) : bytes :=
  build (fun r c => at_ s r ((c + r) mod 4)).
Definition inv_shift_rows (s : bytes) : bytes :=
  build (fun r c => at_ s r ((c + 4 - r) mod 4)).

Definition mix_columns (s : bytes) : bytes :=
  build (fun r c =>
           let a i := at_ s ((r + i) mod 4) c in
           xor4 (mul2 (a 0)) (mul3 (a 1)) (a 2) (a 3)).
Definition inv_mix_columns (s : bytes) : bytes :=
  build (fun r c =>
           let a i := at_ s ((r + i) mod 4) c in
           xor4 (mul14 (a 0)) (mul11 (a 1)) (mul13 (a 2)) (mul9 (a 3))).

Definition add_round_key (k s : bytes) : bytes :=
  build (fun r c => byte_xor (at_ s r c) (at_ k r c)).

(** Key expansion: the next round key from the previous one and the
    round constant. *)
Definition next_round_key (rcon : byte) (k : bytes) : bytes :=
  let t r := sub_byte (at_ k ((r + 1) mod 4) 3) in
  let w0 r := byte_xor (byte_xor (at_ k r 0) (t r))
                (if r =? 0 then rcon else x00) in
  let w1 r := byte_xor (at_ k r 1) (w0 r) in
  let w2 r := byte_xor (at_ k r 2) (w1 r) in
  let w3 r := byte_xor (at_ k r 3) (w2 r) in
  build (fun r c =>
           match c with
           | 0 => w0 r
           | 1 => w1 r
           | 2 => w2 r
           | _ => w3 r
           end).

Definition RCON : bytes :=
  [x01; x02; x04; x08; x10; x20; x40; x80; x1b; x36].

(** The eleven round keys. *)
Definition round_keys (key : bytes) : list bytes :=
  let k0 := build (at_ key) in
  k0 :: snd (fold_left
               (fun acc rcon =>
                  let k := next_round_key rcon (fst acc) in
                  (k, snd acc ++ [k]))
               RCON (k0, [])).

Definition aes128_encrypt (key block : bytes) : bytes :=
  let ks := round_keys key in
  let s0 := add_round_key (ks !!! 0) (build (at_ block)) in
  let s9 :=
    fold_left
      (fun s k => add_round_key k (mix_columns (shift_rows (sub_bytes s))))
      (take 9 (drop 1 ks)) s0 in
  add_round_key (ks !!! 10) (shift_rows (sub_bytes s9)).

Definition aes128_decrypt (key block : bytes) : bytes :=
  let ks := round_keys key in
  let s0 := add_round_key (ks !!! 10) (build (at_ block)) in
  let s9 :=
    fold_left
      (fun s k =>
         inv_mix_columns (add_round_key k (inv_sub_bytes (inv_shift_rows s))))
      (reverse (take 9 (drop 1 ks))) s0 in
  add_round_key (ks !!! 0) (inv_sub_bytes (inv_shift_rows s9)).

End Aes.

(* ===================================================================== *)
(** ** The text encoding of tokens *)
(* ===================================================================== *)

Module Base64.

(** The codec of Python's [base64] module, through which the cryptography
    package passes every token: [cipher.encrypt] returns the encoded
    text, [cipher.decrypt] decodes what it is given. *)

(** The alphabet of URL-safe base64 (RFC 4648, section 5) and the padding
    character. *)
Definition ALPHABET : bytes :=
  list_byte_of_string
    "ABCDEFGHIJKLMNOPQRSTUVWXYZabcdefghijklmnopqrstuvwxyz0123456789-_".
Definition PAD : byte := x3d.

(** The character of a 6-bit value. *)
Definition sextet (v : N) : byte := default PAD (ALPHABET !! N.to_nat v).

(** [base64.urlsafe_b64encode]: three bytes give four characters; one
    or two bytes left over give two or three characters and padding. *)
Fixpoint urlsafe_b64encode (data : bytes) : bytes :=
  match data with
  | [] => []
  | [a] =>
      let n := Byte.to_N a in
      [sextet (n / 4); sextet (n mod 4 * 16); PAD; PAD]
  | [a; b] =>
      let n := (Byte.to_N a * 256 + Byte.to_N b)%N in
      [sextet (n / 1024); sextet (n / 16 mod 64); sextet (n mod 16 * 4);
       PAD]
  | a :: b :: c :: rest =>
      let n := (Byte.to_N a * 65536 + Byte.to_N b * 256 + Byte.to_N c)%N in
      sextet (n / 262144) :: sextet (n / 4096 mod 64)
        :: sextet (n / 64 mod 64) :: sextet (n mod 64)
        :: urlsafe_b64encode rest
  end.

(** The 6-bit value of a character; the decoder takes the characters of
    the standard alphabet, plus and slash, as well. *)
Definition value_of (ch : byte) : option N :=
  let n := Byte.to_N ch in
  if ((65 <=? n) && (n <=? 90))%N then Some (n - 65)%N
  else if ((97 <=? n) && (n <=? 122))%N then Some (n - 71)%N
  else if ((48 <=? n) && (n <=? 57))%N then Some (n + 4)%N
  else if ((n =? 45) || (n =? 43))%N then Some 62%N
  else if ((n =? 95) || (n =? 47))%N then Some 63%N
  else None.

(** [base64.urlsafe_b64decode], which does not validate: characters
    outside the alphabet are skipped, the bits left over in the last
    character are dropped, and padding that completes a group of four ends
    the decoding.  [quad_pos] is the position in the group of four,
    [leftchar] the bits not yet written, [pads] the padding characters
    seen in a row.  [None] is [binascii.Error]. *)
Fixpoint a2b_base64 (s : bytes) (quad_pos : nat) (leftchar : N) (pads : nat)
  : option bytes :=
  match s with
  | [] => if quad_pos =? 0 then Some [] else None
  | ch :: s' =>
      if bool_decide (ch = PAD) then
        if (2 <=? quad_pos) && (4 <=? quad_pos + S pads) then Some []
        else a2b_base64 s' quad_pos leftchar
               (if 2 <=? quad_pos then S pads else pads)
      else
        match value_of ch with
        | None => a2b_base64 s' quad_pos leftchar pads
        | Some v =>
            match quad_pos with
            | 0 => a2b_base64 s' 1 v 0
            | 1 =>
                cons (byte_of_N (leftchar * 4 + v / 16))
                  <$> a2b_base64 s' 2 (v mod 16) 0
            | 2 =>
                cons (byte_of_N (leftchar * 16 + v / 4))
                  <$> a2b_base64 s' 3 (v mod 4) 0
            | _ =>
                cons (byte_of_N (leftchar * 64 + v))
                  <$> a2b_base64 s' 0 0 0
            end
        end
  end.

Definition urlsafe_b64decode (s : bytes) : option bytes :=
  a2b_base64 s 0 0 0.

End Base64.

(* ===================================================================== *)
(** ** The program *)
(* ===================================================================== *)

Module App.

Definition path := string.

(** A file as the operating system identifies it, whatever path names it:
    a relative path and a full path name, or two spellings of one path,
    may name the same file. *)
Record file := File { file_name : string }.

#[global] Instance file_eq_decision : EqDecision file.
Proof. solve_decision. Defined.
#[global] Instance file_countable : Countable file :=
  inj_countable' file_name File (fun f => match f with File _ => eq_refl end).

(** Configuration constants of the source. *)
Definition APP_NAME : string := "🛡️  Image Encryption Tool".
Definition KEY_FILE : path := "secret.key".

Definition newline : string := String (Ascii.ascii_of_nat 10) EmptyString.

(** [messagebox.showinfo] and [messagebox.showerror]: title and text. *)
Inductive message :=
| showinfo (title text : string)
| showerror (title text : string).

(** Why a file cannot be opened: the [OSError] that [open] raises.
    [ENOENT] is a [FileNotFoundError] (such as a missing directory on the
    way to the file), [EACCES] a [PermissionError], [Errno n] any other
    [OSError] (a directory in place of the file, a read-only file
    system, ...). *)
Inductive os_error :=
| ENOENT
| EACCES
| Errno (n : nat).

(** What the program runs against:
    - [fs]: the files and their contents;
    - [faults]: the files that cannot be opened, for reading or for
      writing, each with the reason;
    - [entropy]: how many times the random source and clock were drawn;
    - [dialogs]: the answers the user will give to the file dialogs, in
      order (the empty string is a cancelled dialog);
    - [shown]: the message boxes shown so far, oldest first. *)
Record world := World {
  fs : gmap file bytes;
  faults : gmap file os_error;
  entropy : nat;
  dialogs : list string;
  shown : list message
}.

Definition set_fs (f : gmap file bytes) (w : world) : world :=
  World f (faults w) (entropy w) (dialogs w) (shown w).
Definition set_entropy (n : nat) (w : world) : world :=
  World (fs w) (faults w) n (dialogs w) (shown w).
Definition set_dialogs (d : list string) (w : world) : world :=
  World (fs w) (faults w) (entropy w) d (shown w).
Definition set_shown (s : list message) (w : world) : world :=
  World (fs w) (faults w) (entropy w) (dialogs w) s.

(** Python exceptions (subclasses of [Exception]) the modelled operations
    raise: the [OSError]s of [Path.read_bytes] / [Path.write_bytes], with
    the path as the program wrote it, and whatever the cipher library
    raises, of type [L]. *)
Inductive exn (L : Type) :=
| FileNotFoundError (p : path)
| PermissionError (p : path)
| OSError (errno : nat) (p : path)
| LibraryError (e : L).
Arguments FileNotFoundError {L} p.
Arguments PermissionError {L} p.
Arguments OSError {L} errno p.
Arguments LibraryError {L} e.

(** The exception for a file that cannot be opened. *)
Definition os_exn {L} (k : os_error) (p : path) : exn L :=
  match k with
  | ENOENT => FileNotFoundError p
  | EACCES => PermissionError p
  | Errno n => OSError n p
  end.

(** The cipher library as the program uses it; its code is not in the
    repository, so it is a parameter:
    - [generate_key n]: [Fernet.generate_key()] at the [n]-th draw of the
      random source;
    - [Fernet key]: the constructor, which may reject the key;
    - [encrypt c n data]: [c.encrypt(data)] at the [n]-th draw of the
      random source and clock;
    - [decrypt c token]: [c.decrypt(token)]. *)
Record library (L : Type) := Library {
  cipher : Type;
  generate_key : nat -> bytes;
  Fernet : bytes -> L + cipher;
  encrypt : cipher -> nat -> bytes -> L + bytes;
  decrypt : cipher -> bytes -> L + bytes
}.
Arguments cipher {L} _.
Arguments generate_key {L} _ _.
Arguments Fernet {L} _ _.
Arguments encrypt {L} _ _ _ _.
Arguments decrypt {L} _ _ _.

(** The answer the next file dialog gets: the empty string when the user
    cancels it, or when no answer is left. *)
Definition next_answer (answers : list string) : string :=
  match answers with
  | [] => EmptyString
  | a :: _ => a
  end.

(** Computations that read and update the world and may raise. *)
Definition M (L A : Type) : Type := world -> (exn L + A) * world.

Definition ret {L A} (a : A) : M L A := fun w => (inr a, w).
Definition raise {L A} (e : exn L) : M L A := fun w => (inl e, w).
Definition bind {L A B} (m : M L A) (k : A -> M L B) : M L B :=
  fun w =>
    match m w with
    | (inr a, w') => k a w'
    | (inl e, w') => (inl e, w')
    end.

(** [try: body except Exception as err: handler err]. *)
Definition try_except {L A} (body : M L A) (handler : exn L -> M L A)
  : M L A :=
  fun w =>
    match body w with
    | (inr a, w') => (inr a, w')
    | (inl e, w') => handler e w'
    end.

Declare Scope prog_scope.
Delimit Scope prog_scope with prog.
Notation "x <- m ;; k" := (bind m (fun x => k))
  (at level 100, m at next level, right associativity) : prog_scope.
Notation "m ;;; k" := (bind m (fun _ => k))
  (at level 100, right associativity) : prog_scope.
Local Open Scope prog_scope.

Section Program.
Context {L : Type}.
(** The file a path names, as the operating system resolves it (current
    directory, links, spelling); it is the same throughout a run. *)
Variable resolve : path -> file.
Variable lib : library L.
(** Python's [str(err)], used to format the error dialogs. *)
Variable str : exn L -> string.

(** [filedialog.askopenfilename] / [filedialog.asksaveasfilename]: the
    next answer of the user; no answer left counts as a cancel. *)
Definition ask_dialog : M L string :=
  fun w => (inr (next_answer (dialogs w)), set_dialogs (tail (dialogs w)) w).
Definition askopenfilename : M L string := ask_dialog.
Definition asksaveasfilename : M L string := ask_dialog.

Definition show (m : message) : M L unit :=
  fun w => (inr tt, set_shown (shown w ++ [m]) w).

(** [Path(p).exists()]. *)
Definition path_exists (p : path) : M L bool :=
  fun w => (inr (bool_decide (is_Some (fs w !! resolve p))), w).

(** [Path(p).read_bytes()]: the file is opened, which fails when it is
    among the faults or does not exist, and read. *)
Definition read_bytes (p : path) : M L bytes :=
  fun w =>
    match faults w !! resolve p with
    | Some k => (inl (os_exn k p), w)
    | None =>
        match fs w !! resolve p with
        | Some b => (inr b, w)
        | None => (inl (FileNotFoundError p), w)
        end
    end.

(** [Path(p).write_bytes(data)]: the file is opened for writing, which
    fails when it is among the faults, and the data replace what the file
    held. *)
Definition write_bytes (p : path) (data : bytes) : M L unit :=
  fun w =>
    match faults w !! resolve p with
    | Some k => (inl (os_exn k p), w)
    | None => (inr tt, set_fs (<[resolve p := data]> (fs w)) w)
    end.

(** One draw of the random source (and clock). *)
Definition draw : M L nat :=
  fun w => (inr (entropy w), set_entropy (S (entropy w)) w).

Definition lift {A} (r : L + A) : M L A :=
  match r with
  | inl e => raise (LibraryError e)
  | inr a => ret a
  end.

Definition _generate_key : M L bytes :=
  n <- draw ;;
  let key := generate_key lib n in
  write_bytes KEY_FILE key ;;;
  ret key.

Definition _load_key : M L bytes :=
  e <- path_exists KEY_FILE ;;
  if negb e then _generate_key
  else read_bytes KEY_FILE.

Definition _get_fernet : M L (cipher lib) :=
  key <- _load_key ;;
  lift (Fernet lib key).

Definition cipher_encrypt (c : cipher lib) (data : bytes) : M L bytes :=
  n <- draw ;;
  lift (encrypt lib c n data).

Definition cipher_decrypt (c : cipher lib) (token : bytes) : M L bytes :=
  lift (decrypt lib c token).

Definition encrypt_file : M L unit :=
  src_path <- askopenfilename ;;
  if bool_decide (src_path = EmptyString) then ret tt
  else
    try_except
      (data <- read_bytes src_path ;;
       c <- _get_fernet ;;
       encrypted <- cipher_encrypt c data ;;
       dst_path <- asksaveasfilename ;;
       if bool_decide (dst_path = EmptyString) then ret tt
       else
         write_bytes dst_path encrypted ;;;
         show (showinfo APP_NAME "Image encrypted successfully! ✔️"))
      (fun err =>
         show (showerror APP_NAME
                 ("Encryption failed:" ++ newline ++ str err))).

Definition decrypt_file : M L unit :=
  enc_path <- askopenfilename ;;
  if bool_decide (enc_path = EmptyString) then ret tt
  else
    try_except
      (encrypted_data <- read_bytes enc_path ;;
       c <- _get_fernet ;;
       decrypted <- cipher_decrypt c encrypted_data ;;
       dst_path <- asksaveasfilename ;;
       if bool_decide (dst_path = EmptyString) then ret tt
       else
         write_bytes dst_path decrypted ;;;
         show (showinfo APP_NAME "Image decrypted successfully! ✔️"))
      (fun err =>
         show (showerror APP_NAME
                 ("Decryption failed:" ++ newline ++ str err))).

(** The file the key is kept in. *)
Definition key_file : file := resolve KEY_FILE.

(** The file system of [w'] is that of [w], except that the key file may
    have been created, with the key generated from the entropy of [w]. *)
Definition key_file_only (w w' : world) : Prop :=
  fs w' = fs w
  \/ (fs w !! key_file = None
      /\ fs w' = <[key_file := generate_key lib (entropy w)]> (fs w)).

(** The world after [_generate_key] has drawn a key and written it. *)
Definition key_created (w : world) : world :=
  set_fs (<[key_file := generate_key lib (entropy w)]> (fs w))
    (set_entropy (S (entropy w)) w).

(** A destination file was written: both dialogs were answered, the source
    file was read, a cipher was built from the key in the key file, the
    cipher operation returned [out], and [out] is what the destination
    holds.  [result_of c data out] says which operation returned [out]. *)
Definition destination_written
    (result_of : cipher lib -> bytes -> bytes -> Prop) (w w' : world)
  : Prop :=
  exists data key c out wk,
    next_answer (dialogs w) <> EmptyString
    /\ next_answer (tail (dialogs w)) <> EmptyString
    /\ fs w !! resolve (next_answer (dialogs w)) = Some data
    /\ key_file_only w wk
    /\ fs wk !! key_file = Some key
    /\ Fernet lib key = inr c
    /\ result_of c data out
    /\ fs w' = <[resolve (next_answer (tail (dialogs w))) := out]> (fs wk).

Definition encrypted (c : cipher lib) (data out : bytes) : Prop :=
  exists n, encrypt lib c n data = inr out.
Definition decrypted (c : cipher lib) (data out : bytes) : Prop :=
  decrypt lib c data = inr out.

End Program.

End App.

(* ===================================================================== *)
(** ** The cipher as the program's library, and a small instance *)
(* ===================================================================== *)

Module Model.
Import Cipher App.

(** Modelled from the spec: the absent cipher library, as the cipher of
    [Module Cipher] behind the interface the program uses.  [urandom n len]
    is the [n]-th draw of [len] random bytes and [clock n] the time at that
    draw; a key of the wrong length is reported as [CorruptKeyError]. *)
Definition spec_library (P : primitives)
    (urandom : nat -> nat -> bytes) (clock : nat -> N)
  : library error_kind :=
  {| cipher := bytes;
     generate_key := fun n => urandom n KEY_LEN;
     Fernet := fun k =>
       if bool_decide (length k = KEY_LEN) then inr k
       else inl CorruptKeyError;
     encrypt := fun c n data =>
       inr (seal P c (clock n) (urandom n NONCE_LEN) data);
     decrypt := fun c token => open P c token |}.

(** A small instance of the primitives, to run the model on concrete
    inputs: the block cipher xors the block with the key, the tag is the
    xor of all key and message bytes, 32 times. *)
Definition toy_hmac (sk m : bytes) : bytes :=
  replicate TAG_LEN (foldr byte_xor x00 (sk ++ m)).

Definition toy : primitives :=
  {| VERSION := x80;
     E := fun ek b => xor_bytes b ek;
     D := fun ek c => xor_bytes c ek;
     hmac := toy_hmac |}.

(** Modelled from the spec: the primitives with the MAC the specification
    names; the version marker and the block cipher, which it leaves
    open, stay parameters. *)
Definition with_hmac_sha256 (version : byte)
    (enc dec : bytes -> bytes -> bytes) : primitives :=
  {| VERSION := version; E := enc; D := dec; hmac := Sha256.hmac_sha256 |}.

(** The primitives of the Fernet format, which the cryptography package
    implements: version marker 0x80, AES with a 128-bit key, and
    HMAC-SHA256. *)
Definition fernet_primitives : primitives :=
  with_hmac_sha256 x80 Aes.aes128_encrypt Aes.aes128_decrypt.

Definition toy_urandom (n len : nat) : bytes :=
  map byte_of_nat (seq (S n) len).
Definition toy_clock (n : nat) : N := N.of_nat n.

Definition toy_library : library error_kind :=
  spec_library toy toy_urandom toy_clock.

Definition quoted (p : string) : string := "'" ++ p ++ "'".

Definition decimal (n : nat) : string :=
  NilEmpty.string_of_uint (Nat.to_uint n).

(** [str(err)] on the example worlds: the text Python gives an [OSError]
    ("[Errno 2] No such file or directory: 'p'"), and the name of the
    failure kind for an error of the cipher. *)
Definition toy_str (e : exn error_kind) : string :=
  match e with
  | FileNotFoundError p => "[Errno 2] No such file or directory: " ++ quoted p
  | PermissionError p => "[Errno 13] Permission denied: " ++ quoted p
  | OSError n p => "[Errno " ++ decimal n ++ "] " ++ quoted p
  | LibraryError StorageError => "StorageError"
  | LibraryError CorruptKeyError => "CorruptKeyError"
  | LibraryError AuthenticationError => "AuthenticationError"
  | LibraryError FormatError => "FormatError"
  | LibraryError ImplementationInvariantError =>
      "ImplementationInvariantError"
  end.

(** Path resolution on the example worlds: the program runs in the
    directory [CWD]; a path that starts with a slash names the file of
    that name, any other path the file of that name under [CWD]. *)
Definition CWD : string := "/app".

Definition is_absolute (p : path) : bool :=
  match p with
  | String c _ => Ascii.eqb c (Ascii.ascii_of_nat 47)
  | EmptyString => false
  end.

Definition abspath (p : path) : file :=
  File (if is_absolute p then p else CWD ++ "/" ++ p).

(** The concrete scenario of the specification: 32 fixed key bytes and
    the 3-byte PNG magic-number fragment. *)
Definition test_key : bytes := map byte_of_nat (seq 0 32).
Definition png_magic : bytes := [x89; x50; x4e].
Definition test_nonce : bytes := map byte_of_nat (seq 100 16).
Definition test_token : bytes :=
  seal toy test_key 1751414400 test_nonce png_magic.

(** The token as [cipher.encrypt] hands it to the program.  The
    cryptography package, which is not part of the repository, returns
    the fields of the layout as URL-safe base64 text (the Fernet token
    format), not as the raw concatenation. *)
Definition token_text (P : primitives) (k : bytes) (ts : N)
    (nonce p : bytes) : bytes :=
  Base64.urlsafe_b64encode (seal P k ts nonce p).

(** The concrete scenario under the primitives of the Fernet format: the
    fields of the token, and the token as the program gets it. *)
Definition fernet_raw : bytes :=
  seal fernet_primitives test_key 1751414400 test_nonce png_magic.
Definition fernet_token : bytes :=
  token_text fernet_primitives test_key 1751414400 test_nonce png_magic.


(** Another key, the one the random source of the example yields at its
    first draw. *)
Definition test_key3 : bytes := map byte_of_nat (seq 1 32).

(** Worlds to run the program in, with the full path names the file
    dialogs return: [w_fresh] has an image and no key file; [w_corrupt]
    has a key file of three bytes; [w_token] has a token sealed under
    [test_key] and no key file. *)
Definition the_key_file : file := File "/app/secret.key".
Definition a_png : file := File "/img/a.png".
Definition a_enc : file := File "/img/a.enc".

Definition w_fresh : world :=
  World {[a_png := png_magic]} ∅ 0 ["/img/a.png"; "/img/a.enc"] [].
Definition corrupt_key : bytes := [x61; x62; x63].
Definition w_corrupt : world :=
  World (<[the_key_file := corrupt_key]> {[a_png := png_magic]}) ∅ 0
    ["/img/a.png"; "/img/a.enc"] [].
Definition w_token : world :=
  World {[a_enc := test_token]} ∅ 0 ["/img/a.enc"; "/img/a.png"] [].
Definition w_roundtrip : world :=
  World {[a_png := png_magic]} ∅ 0
    ["/img/a.png"; "/img/a.enc"; "/img/a.enc"; "/img/b.png"] [].


End Model.

(* ===================================================================== *)
(** ** The [Fernet] class of the cryptography package *)
(* ===================================================================== *)

(** The package is not part of the repository.  Its [Fernet] class is
    modelled here after the Fernet token format that it implements, over
    the text encoding of [Module Base64] and the primitives of
    [Module Cipher]. *)
Module Package.
Import Cipher App Model.



Section Fernet.
Variable P : primitives.





End Fernet.






End Package.

(* ===================================================================== *)
(** ** The window and the session *)
(* ===================================================================== *)

Module Gui.
Import App.
Local Open Scope prog_scope.

(** Configuration constants of the source. *)
Definition WINDOW_SIZE : string := "500x360".

Definition SOCIAL_LINKS : list (string * string) :=
  [ ("github", "https://github.com/Ninja-Atmos");
    ("linkedin", "https://www.linkedin.com/in/suvam0961/");
    ("facebook", "https://www.facebook.com/Suvam0961/");
    ("instagram", "https://www.instagram.com/suvam__biswas/") ].

(** Values of widget options: strings, numbers, fonts (family, size and,
    when given, weight) and flags. *)
Inductive value :=
| Str (s : string)
| Num (n : nat)
| Font (family : string) (size : nat) (weight : option string)
| Flag (b : bool).

Definition FONT_HEADER : value := Font "Helvetica" 18 (Some "bold").
Definition FONT_BUTTON : value := Font "Helvetica" 13 (Some "bold").
Definition FONT_FOOTER : value := Font "Helvetica" 9 None.

(** What a button does when it is clicked: [command=encrypt_file],
    [command=decrypt_file], [command=lambda u=url: open_link(u)]. *)
Inductive command :=
| run_encrypt_file
| run_decrypt_file
| run_open_link (url : string).

(** The message boxes of the two file operations. *)
Definition encrypt_ok_box : message :=
  showinfo APP_NAME "Image encrypted successfully! ✔️".
Definition decrypt_ok_box : message :=
  showinfo APP_NAME "Image decrypted successfully! ✔️".

(** The desktop the session runs on: the world of the file operations and
    the pages opened in the web browser, oldest first. *)
Record desktop := Desktop {
  sys : world;
  browser : list string
}.

(** [open_link(url)]: [webbrowser.open(url)]. *)
Definition open_link (url : string) (d : desktop) : desktop :=
  Desktop (sys d) (browser d ++ [url]).

Section Window.
Context {L : Type}.
Variable resolve : path -> file.
Variable lib : library L.
Variable str : exn L -> string.
(** The icon as the toolkit holds it, and its construction from the bytes
    of the icon file: [Image.open(...).resize((24, 24))] followed by
    [ImageTk.PhotoImage(...)], which may raise. *)
Variable photo : Type.
Variable PhotoImage : bytes -> L + photo.

Definition encrypt_error_box (e : exn L) : message :=
  showerror APP_NAME ("Encryption failed:" ++ newline ++ str e).
Definition decrypt_error_box (e : exn L) : message :=
  showerror APP_NAME ("Decryption failed:" ++ newline ++ str e).

(** A widget with its options, its [pack] options and, for a frame, the
    widgets packed in it, in creation order. *)
#[local] Unset Elimination Schemes.
Inductive widget :=
| Label (options pack : list (string * value))
| Button (options : list (string * value)) (image : option photo)
    (cmd : command) (pack : list (string * value))
| Frame (options pack : list (string * value)) (children : list widget).
#[local] Set Elimination Schemes.

(** The root window [tk.Tk()]. *)
Record window := Window {
  title : string;
  geometry : string;
  configure : list (string * value);
  resizable : bool * bool;
  content : list widget
}.

(** [f"icons/{platform}.png"]. *)
Definition icon_path (platform : string) : path :=
  ("icons/" ++ platform ++ ".png")%string.

Definition icon_button (url : string) (icon_photo : photo) : widget :=
  Button
    [ ("bg", Str "#111120"); ("borderwidth", Num 0);
      ("activebackground", Str "#111120"); ("cursor", Str "hand2") ]
    (Some icon_photo) (run_open_link url)
    [ ("side", Str "left"); ("padx", Num 10) ].

(** The loop over [SOCIAL_LINKS.items()]: one button per platform whose
    icon can be loaded; a [FileNotFoundError] skips the platform, any other
    exception leaves the loop. *)
Fixpoint icon_buttons (links : list (string * string))
  : M L (list widget) :=
  match links with
  | [] => ret []
  | (platform, url) :: rest =>
      made <- try_except
                (icon_img <- read_bytes resolve (icon_path platform) ;;
                 icon_photo <- lift (PhotoImage icon_img) ;;
                 ret (Some (icon_button url icon_photo)))
                (fun err =>
                   match err with
                   | FileNotFoundError _ => ret None
                   | _ => raise err
                   end) ;;
      others <- icon_buttons rest ;;
      ret (match made with
           | Some btn => btn :: others
           | None => others
           end)
  end.

Definition _build_gui : M L window :=
  icons <- icon_buttons SOCIAL_LINKS ;;
  ret (Window APP_NAME WINDOW_SIZE [("bg", Str "#111120")] (false, false)
         [ Frame
             [ ("padx", Num 20); ("pady", Num 20); ("bg", Str "#111120") ]
             [ ("expand", Flag true); ("fill", Str "both") ]
             [ Label
                 [ ("text", Str "🔐 Image Encryption Tool");
                   ("font", FONT_HEADER); ("fg", Str "#ffffff");
                   ("bg", Str "#111120") ]
                 [ ("pady", Num 10) ];
               Button
                 [ ("text", Str "🔒 Encrypt Image"); ("font", FONT_BUTTON);
                   ("width", Num 24); ("bg", Str "#3c3c5c");
                   ("fg", Str "#e0e0ff");
                   ("activebackground", Str "#5a5a8a");
                   ("activeforeground", Str "#e0e0ff");
                   ("relief", Str "flat"); ("bd", Num 0);
                   ("cursor", Str "hand2"); ("highlightthickness", Num 0) ]
                 None run_encrypt_file
                 [ ("pady", Num 8) ];
               Button
                 [ ("text", Str "🔓 Decrypt Image"); ("font", FONT_BUTTON);
                   ("width", Num 24); ("bg", Str "#3c3c5c");
                   ("fg", Str "#e0e0ff");
                   ("activebackground", Str "#5a5a8a");
                   ("activeforeground", Str "#e0e0ff");
                   ("relief", Str "flat"); ("bd", Num 2);
                   ("cursor", Str "hand2"); ("highlightthickness", Num 0) ]
                 None run_decrypt_file
                 [ ("pady", Num 8) ];
               Frame [ ("bg", Str "#111120") ] [ ("pady", Num 15) ] icons;
               Label
                 [ ("text", Str "Created by Suvam Biswas");
                   ("font", FONT_FOOTER); ("fg", Str "#888");
                   ("bg", Str "#111120") ]
                 [ ("pady", Num 5) ] ] ]).

(** The commands of the buttons of a widget, in creation order. *)
Fixpoint widget_commands (x : widget) : list command :=
  match x with
  | Label _ _ => []
  | Button _ _ c _ => [c]
  | Frame _ _ children =>
      (fix go (l : list widget) : list command :=
         match l with
         | [] => []
         | y :: l' => widget_commands y ++ go l'
         end) children
  end.

Definition window_commands (app : window) : list command :=
  flat_map widget_commands (content app).

(** A click on a button runs its command.  The toolkit reports an
    exception of a command and carries on, so only the effect on the
    desktop remains. *)
Definition invoke (c : command) (d : desktop) : desktop :=
  match c with
  | run_encrypt_file =>
      Desktop (snd (encrypt_file resolve lib str (sys d))) (browser d)
  | run_decrypt_file =>
      Desktop (snd (decrypt_file resolve lib str (sys d))) (browser d)
  | run_open_link url => open_link url d
  end.

(** [app.mainloop()]: the user clicks buttons, given by their position
    among the buttons of the window, until the window is closed. *)
Definition mainloop (app : window) (clicks : list nat) (d : desktop)
  : desktop :=
  fold_left
    (fun d i =>
       match window_commands app !! i with
       | Some c => invoke c d
       | None => d
       end)
    clicks d.

Definition main (clicks : list nat) (d : desktop)
  : (exn L + unit) * desktop :=
  match _build_gui (sys d) with
  | (inr app, w) => (inr tt, mainloop app clicks (Desktop w (browser d)))
  | (inl e, w) => (inl e, Desktop w (browser d))
  end.

(** The links whose icon file exists, in the order of the links. *)
Definition available_links (w : world) (links : list (string * string))
  : list (string * string) :=
  List.filter
    (fun link =>
       bool_decide (is_Some (fs w !! resolve (icon_path (fst link)))))
    links.

(** What a session keeps from desktop [d] to desktop [d']: the faults;
    the dialog answers not yet given (a suffix) and the entropy (never
    less); the message boxes and the browser pages so far (a prefix);
    every file (none is removed), and the content of every file that no
    answer to a dialog names. *)
Definition keeps (d d' : desktop) : Prop :=
  faults (sys d') = faults (sys d)
  /\ dialogs (sys d') `suffix_of` dialogs (sys d)
  /\ entropy (sys d) <= entropy (sys d')
  /\ shown (sys d) `prefix_of` shown (sys d')
  /\ browser d `prefix_of` browser d'
  /\ (forall f : file,
        is_Some (fs (sys d) !! f) -> is_Some (fs (sys d') !! f))
  /\ (forall (f : file) b,
        fs (sys d) !! f = Some b ->
        (forall a, a ∈ dialogs (sys d) -> resolve a <> f) ->
        fs (sys d') !! f = Some b).

End Window.

(** A small instance to run the window on: the icon is kept as its bytes,
    and an empty icon file cannot be decoded. *)
Definition toy_photo (icon : bytes) : Cipher.error_kind + bytes :=
  match icon with
  | [] => inl Cipher.FormatError
  | _ => inr icon
  end.

(** Desktops to run the session on: [d_icons] has the GitHub and Facebook
    icons and an image; in [d_locked] the LinkedIn icon cannot be
    opened. *)
Definition d_icons : desktop :=
  Desktop
    (World (<[File "/app/icons/github.png" := Model.png_magic]>
              (<[File "/app/icons/facebook.png" := Model.png_magic]>
                 {[Model.a_png := Model.png_magic]}))
       ∅ 0 ["/img/a.png"; "/img/a.enc"; "/img/a.enc"; "/img/b.png"] [])
    [].
Definition d_locked : desktop :=
  Desktop
    (World {[File "/app/icons/github.png" := Model.png_magic]}
       {[File "/app/icons/linkedin.png" := EACCES]} 0 [] [])
    [].

(** Worlds to run the file operations in: [keyed answers bad] has an
    image, the key file holding [test_key3], the given dialog answers and
    faults; [keyed_token] has, instead of the image, the token [token3]
    sealed under that key; [unkeyed answers] has the image and no key
    file. *)
Definition keyed (answers : list string) (bad : gmap file os_error)
  : world :=
  World (<[Model.the_key_file := Model.test_key3]>
           {[Model.a_png := Model.png_magic]})
    bad 0 answers [].
Definition token3 : bytes :=
  Cipher.seal Model.toy Model.test_key3 0 (Model.toy_urandom 0 16)
    Model.png_magic.
Definition token3' : bytes :=
  Cipher.seal Model.toy Model.test_key3 1 (Model.toy_urandom 1 16)
    Model.png_magic.
Definition keyed_token (answers : list string) (bad : gmap file os_error)
  : world :=
  World (<[Model.the_key_file := Model.test_key3]> {[Model.a_enc := token3]})
    bad 0 answers [].
Definition unkeyed (answers : list string) : world :=
  World {[Model.a_png := Model.png_magic]} ∅ 0 answers [].

End Gui.

(* ===================================================================== *)
(** ** Lemmas on bytes *)
(* ===================================================================== *)

Module BytesFacts.

Lemma to_N_byte_of_N n : Byte.to_N (byte_of_N n) = (n mod 256)%N.
Proof.
  unfold byte_of_N.
  destruct (Byte.of_N (n mod 256)) as [b|] eqn:Hb.
  - by apply Byte.to_of_N.
  - apply Byte.of_N_None_iff in Hb.
    pose proof (N.mod_upper_bound n 256). lia.
Qed.

Lemma to_N_lt b : (Byte.to_N b < 256)%N.
Proof. pose proof (Byte.to_N_bounded b). lia. Qed.

Lemma to_N_inj a b : Byte.to_N a = Byte.to_N b -> a = b.
Proof.
  intros H. apply (f_equal Byte.of_N) in H.
  rewrite !Byte.of_to_N in H. congruence.
Qed.

Lemma byte_of_N_to_N b : byte_of_N (Byte.to_N b) = b.
Proof.
  apply to_N_inj. rewrite to_N_byte_of_N.
  apply N.mod_small, to_N_lt.
Qed.

Lemma testbit_byte_high b m : (8 <= m)%N -> N.testbit (Byte.to_N b) m = false.
Proof.
  intros Hm. rewrite <- (N.mod_small (Byte.to_N b) (2 ^ 8)) by apply to_N_lt.
  by apply N.mod_pow2_bits_high.
Qed.

Lemma testbit_mod_256 n m :
  N.testbit (n mod 256) m = if (m <? 8)%N then N.testbit n m else false.
Proof.
  change 256%N with (2 ^ 8)%N.
  destruct (N.ltb_spec m 8).
  - by apply N.mod_pow2_bits_low.
  - by apply N.mod_pow2_bits_high.
Qed.

Lemma byte_xor_cancel a b : byte_xor (byte_xor a b) b = a.
Proof.
  apply to_N_inj. unfold byte_xor. rewrite !to_N_byte_of_N.
  apply N.bits_inj. intros m.
  rewrite testbit_mod_256, N.lxor_spec, testbit_mod_256, N.lxor_spec.
  destruct (N.ltb_spec m 8).
  - by destruct (N.testbit _ m), (N.testbit _ m).
  - by rewrite testbit_byte_high.
Qed.

Lemma xor_bytes_cancel a b :
  length a = length b -> xor_bytes (xor_bytes a b) b = a.
Proof.
  unfold xor_bytes. revert b.
  induction a as [|x a IH]; intros [|y b] Hlen; simplify_eq/=; [done|].
  by rewrite byte_xor_cancel, IH.
Qed.

Lemma length_xor_bytes a b :
  length (xor_bytes a b) = Nat.min (length a) (length b).
Proof. apply length_zip_with. Qed.

Lemma length_to_be n t : length (to_be n t) = n.
Proof.
  revert t. induction n as [|n IH]; intros t; simpl; [done|].
  rewrite length_app, IH. simpl. lia.
Qed.

Lemma from_be_app l b :
  from_be (l ++ [b]) = (from_be l * 256 + Byte.to_N b)%N.
Proof. unfold from_be. by rewrite fold_left_app. Qed.

Lemma from_be_to_be n t : from_be (to_be n t) = (t mod 256 ^ N.of_nat n)%N.
Proof.
  revert t. induction n as [|n IH]; intros t.
  - simpl. by rewrite N.mod_1_r.
  - cbn [to_be]. rewrite from_be_app, IH, to_N_byte_of_N.
    rewrite Nat2N.inj_succ, N.pow_succ_r'.
    rewrite N.Div0.mod_mul_r, N.Div0.mod_mod. lia.
Qed.

Lemma to_be_inj n t1 t2 :
  (t1 < 256 ^ N.of_nat n)%N -> (t2 < 256 ^ N.of_nat n)%N ->
  to_be n t1 = to_be n t2 -> t1 = t2.
Proof.
  intros H1 H2 Heq. apply (f_equal from_be) in Heq.
  rewrite !from_be_to_be, !N.mod_small in Heq; done.
Qed.

End BytesFacts.

(* ===================================================================== *)
(** ** Properties of the cipher *)
(* ===================================================================== *)

Module CipherFacts.
Import Cipher BytesFacts.

(** *** Padding *)

Lemma pad_amount (p : bytes) :
  1 <= BLOCK - length p mod BLOCK <= BLOCK.
Proof.
  unfold BLOCK. pose proof (Nat.mod_upper_bound (length p) 16). lia.
Qed.

Lemma length_pad p : length (pad p) = BLOCK * (length p / BLOCK + 1).
Proof.
  unfold pad. rewrite length_app, length_replicate.
  pose proof (Nat.div_mod_eq (length p) BLOCK).
  pose proof (pad_amount p). lia.
Qed.

Lemma length_pad_blocks p : length (pad p) / BLOCK = length p / BLOCK + 1.
Proof.
  rewrite length_pad, Nat.mul_comm. by apply Nat.div_mul.
Qed.

Lemma to_nat_byte_of_nat n : n < 256 -> Byte.to_nat (byte_of_nat n) = n.
Proof.
  intros Hn. unfold byte_of_nat.
  rewrite Byte.to_nat_via_N, to_N_byte_of_N, N.mod_small; lia.
Qed.

Lemma last_app_replicate {A} (l : list A) n x :
  0 < n -> last (l ++ replicate n x) = Some x.
Proof.
  destruct n as [|n]; [lia|]. intros _.
  rewrite replicate_S_end, app_assoc. apply last_snoc.
Qed.

Lemma unpad_pad p : unpad (pad p) = Some p.
Proof.
  pose proof (pad_amount p) as Hn. unfold pad, unpad.
  set (n := BLOCK - length p mod BLOCK) in *.
  rewrite last_app_replicate by lia.
  rewrite to_nat_byte_of_nat by (unfold BLOCK in *; lia).
  rewrite length_app, length_replicate.
  replace (length p + n - n) with (length p) by lia.
  rewrite drop_app_length, take_app_length.
  unfold bytes_eqb. rewrite bool_decide_eq_true_2 by done.
  repeat (rewrite (proj2 (Nat.leb_le _ _)) by lia). done.
Qed.

(** *** CBC mode over a lawful block cipher *)

Section Laws.
Variable P : primitives.

Lemma length_cbc_encrypt n ek prev data :
  block_cipher_length P ->
  length ek = 16 -> length prev = BLOCK -> length data = n * BLOCK ->
  length (cbc_encrypt P n ek prev data) = n * BLOCK.
Proof.
  intros HE Hek. revert prev data.
  induction n as [|n IH]; intros prev data Hprev Hdata; [done|].
  cbn [cbc_encrypt]. rewrite length_app.
  assert (length (E P ek (xor_bytes (take BLOCK data) prev)) = BLOCK)
    as Hc.
  { apply HE; [done|]. rewrite length_xor_bytes, length_take. lia. }
  rewrite Hc, IH; [lia|done|]. rewrite length_drop. lia.
Qed.

Lemma cbc_decrypt_encrypt n ek prev data :
  block_cipher_length P -> block_cipher_inverse P ->
  length ek = 16 -> length prev = BLOCK -> length data = n * BLOCK ->
  cbc_decrypt P n ek prev (cbc_encrypt P n ek prev data) = data.
Proof.
  intros HE HD Hek. revert prev data.
  induction n as [|n IH]; intros prev data Hprev Hdata.
  - by destruct data.
  - cbn [cbc_encrypt cbc_decrypt].
    set (x := xor_bytes (take BLOCK data) prev).
    assert (length x = BLOCK) as Hx.
    { unfold x. rewrite length_xor_bytes, length_take. lia. }
    assert (length (E P ek x) = BLOCK) as Hc by by apply HE.
    rewrite take_app_length', drop_app_length' by done.
    rewrite HD by done. unfold x.
    rewrite xor_bytes_cancel by (rewrite length_take; lia).
    rewrite IH; [apply take_drop|done|]. rewrite length_drop. lia.
Qed.

(** *** Layout of a sealed token *)

Lemma length_enc_half k : valid_key k -> length (enc_half k) = 16.
Proof.
  unfold valid_key, enc_half, KEY_LEN. intros Hk.
  rewrite length_drop. lia.
Qed.

Lemma length_sign_half k : valid_key k -> length (sign_half k) = 16.
Proof.
  unfold valid_key, sign_half, KEY_LEN. intros Hk.
  rewrite length_take. lia.
Qed.

Lemma token_body_eq k ts nonce p :
  token_body P k ts nonce p
  = (VERSION P :: to_be TS_LEN ts ++ nonce) ++ ciphertext P k nonce p.
Proof.
  unfold token_body. cbn [app]. by rewrite app_assoc.
Qed.

Lemma seal_fields k ts nonce p :
  seal P k ts nonce p
  = VERSION P :: to_be TS_LEN ts ++ nonce ++ ciphertext P k nonce p
      ++ hmac P (sign_half k) (token_body P k ts nonce p).
Proof.
  unfold seal. unfold token_body at 1.
  by rewrite <- app_comm_cons, <- !app_assoc.
Qed.

Lemma length_ciphertext k nonce p :
  block_cipher_length P -> valid_key k -> length nonce = NONCE_LEN ->
  length (ciphertext P k nonce p) = BLOCK * (length p / BLOCK + 1).
Proof.
  intros HE Hk Hn. unfold ciphertext.
  rewrite length_cbc_encrypt;
    [|done|by apply length_enc_half|done|].
  - rewrite length_pad_blocks. lia.
  - rewrite length_pad_blocks, length_pad. lia.
Qed.

Lemma length_header ts nonce :
  length nonce = NONCE_LEN ->
  length (VERSION P :: to_be TS_LEN ts ++ nonce) = HEADER_LEN.
Proof.
  intros Hn. cbn [length]. rewrite length_app, length_to_be, Hn. done.
Qed.

Lemma length_token_body k ts nonce p :
  block_cipher_length P -> valid_key k -> length nonce = NONCE_LEN ->
  length (token_body P k ts nonce p)
  = HEADER_LEN + BLOCK * (length p / BLOCK + 1).
Proof.
  intros HE Hk Hn.
  rewrite token_body_eq, length_app, length_header, length_ciphertext;
    done.
Qed.

(** How [open] reads a token that has the five fields of the layout. *)
Lemma open_log_fields k v ts nonce ct tag :
  length ts = TS_LEN -> length nonce = NONCE_LEN ->
  length tag = TAG_LEN ->
  open_log P k ((v :: ts ++ nonce ++ ct) ++ tag)
  = if negb (bool_decide (v = VERSION P)) then ([], inl FormatError)
    else if negb (bytes_eqb (hmac P (sign_half k)
                               (v :: ts ++ nonce ++ ct)) tag)
    then ([MacVerify], inl AuthenticationError)
    else if negb (length ct mod BLOCK =? 0)
    then ([MacVerify], inl ImplementationInvariantError)
    else ([MacVerify; BlockDecrypt],
          match unpad (cbc_decrypt P (length ct / BLOCK) (enc_half k)
                         nonce ct) with
          | Some p => inr p
          | None => inl ImplementationInvariantError
          end).
Proof.
  intros Hts Hn Htag.
  set (body := v :: ts ++ nonce ++ ct).
  assert (length body = HEADER_LEN + length ct) as Hbody.
  { unfold body, HEADER_LEN. cbn [length].
    rewrite !length_app, Hts, Hn. lia. }
  unfold open_log.
  change (body ++ tag) with (v :: (ts ++ nonce ++ ct) ++ tag). cbv iota.
  change (v :: (ts ++ nonce ++ ct) ++ tag) with (body ++ tag).
  destruct (negb (bool_decide (v = VERSION P))); [done|].
  rewrite length_app, Htag.
  destruct (Nat.ltb_spec (length body + TAG_LEN) (HEADER_LEN + TAG_LEN));
    [lia|].
  rewrite take_app_length', drop_app_length' by lia.
  destruct (negb (bytes_eqb _ tag)); [done|].
  assert (drop HEADER_LEN body = ct) as ->.
  { unfold body. rewrite app_assoc.
    change (v :: (ts ++ nonce) ++ ct) with ((v :: ts ++ nonce) ++ ct).
    apply drop_app_length'. cbn [length].
    rewrite length_app, Hts, Hn. done. }
  assert (take NONCE_LEN (drop (1 + TS_LEN) body) = nonce) as ->.
  { unfold body.
    change (v :: ts ++ nonce ++ ct) with ((v :: ts) ++ nonce ++ ct).
    rewrite drop_app_length' by (cbn [length]; rewrite Hts; done).
    by apply take_app_length'. }
  done.
Qed.

(** Opening a freshly sealed token: both cryptographic steps run and
    the plaintext comes back. *)
Lemma open_log_sealed k ts nonce p :
  block_cipher_length P -> block_cipher_inverse P -> mac_length P ->
  valid_key k -> length nonce = NONCE_LEN ->
  open_log P k (seal P k ts nonce p)
  = ([MacVerify; BlockDecrypt], inr p).
Proof.
  intros HE HD HM Hk Hn. unfold seal, token_body.
  rewrite open_log_fields;
    [|apply length_to_be|done|apply HM; by apply length_sign_half].
  rewrite bool_decide_eq_true_2 by done.
  unfold bytes_eqb. rewrite bool_decide_eq_true_2 by done.
  rewrite length_ciphertext by done.
  rewrite (Nat.mul_comm BLOCK), Nat.Div0.mod_mul, Nat.div_mul by done.
  cbn [Nat.eqb negb]. unfold ciphertext. rewrite length_pad_blocks.
  rewrite cbc_decrypt_encrypt;
    [|done|done|by apply length_enc_half|done|].
  - by rewrite unpad_pad.
  - rewrite length_pad. lia.
Qed.

End Laws.

(** *** The small instance satisfies the laws *)

Lemma toy_block_cipher_length : block_cipher_length Model.toy.
Proof.
  intros ek b Hek Hb. cbn. rewrite length_xor_bytes, Hek, Hb. done.
Qed.

Lemma toy_block_cipher_inverse : block_cipher_inverse Model.toy.
Proof.
  intros ek b Hek Hb. cbn. apply xor_bytes_cancel.
  rewrite Hek, Hb. done.
Qed.

Lemma toy_mac_length : mac_length Model.toy.
Proof. intros sk m _. apply length_replicate. Qed.

End CipherFacts.

(* ===================================================================== *)
(** ** Properties of the MAC *)
(* ===================================================================== *)

Module Sha256Facts.
Import Sha256 BytesFacts.

Lemma length_digest (s : state) : length (digest s) = 32.
Proof. unfold digest. by rewrite !length_app, !length_to_be. Qed.

Lemma length_sha256 (m : bytes) : length (sha256 m) = 32.
Proof. apply length_digest. Qed.

(** The tag of HMAC-SHA256 is 32 bytes long, whatever the key and the
    message. *)
Lemma length_hmac_sha256 (key m : bytes) : length (hmac_sha256 key m) = 32.
Proof. apply length_sha256. Qed.

End Sha256Facts.

(* ===================================================================== *)
(** ** Properties of the block cipher *)
(* ===================================================================== *)

Module AesFacts.
Import Aes.

Lemma length_build (f : nat -> nat -> byte) : length (build f) = 16.
Proof. unfold build. by rewrite length_map, length_seq. Qed.

(** AES maps a block to a block. *)
Lemma length_aes128_encrypt (key block : bytes) :
  length (aes128_encrypt key block) = 16.
Proof. apply length_build. Qed.

Lemma length_aes128_decrypt (key block : bytes) :
  length (aes128_decrypt key block) = 16.
Proof. apply length_build. Qed.

End AesFacts.

(* ===================================================================== *)
(** ** Properties of the text encoding *)
(* ===================================================================== *)

Module Base64Facts.
Import Base64 BytesFacts.

(** Three-step induction on lists. *)
Lemma list_ind3 {A} (P : list A -> Prop) :
  P [] -> (forall a, P [a]) -> (forall a b, P [a; b]) ->
  (forall a b c rest, P rest -> P (a :: b :: c :: rest)) ->
  forall l, P l.
Proof.
  intros H0 H1 H2 H3 l.
  assert (P l /\ (forall a, P (a :: l)) /\ (forall a b, P (a :: b :: l)))
    as [Hl _]; [|done].
  induction l as [|x l (IH0 & IH1 & IH2)]; [done|].
  split_and!; auto.
Qed.

(** Every 6-bit value has a character, which is not the padding character
    and which the decoder maps back to the value. *)
Lemma sextet_spec (v : N) :
  (v < 64)%N -> sextet v <> PAD /\ value_of (sextet v) = Some v.
Proof.
  intros Hv.
  assert (Forall (fun n => sextet (N.of_nat n) <> PAD
                           /\ value_of (sextet (N.of_nat n))
                              = Some (N.of_nat n)) (seq 0 64)) as Hall.
  { apply (bool_decide_unpack _). by vm_compute. }
  rewrite Forall_forall in Hall.
  specialize (Hall (N.to_nat v)). rewrite N2Nat.id in Hall.
  apply Hall, elem_of_seq. lia.
Qed.

(** One character of the alphabet, read by the decoder. *)
Lemma a2b_sextet (v : N) (s : bytes) (quad_pos : nat) (leftchar : N)
    (pads : nat) :
  (v < 64)%N ->
  a2b_base64 (sextet v :: s) quad_pos leftchar pads
  = match quad_pos with
    | 0 => a2b_base64 s 1 v 0
    | 1 => cons (byte_of_N (leftchar * 4 + v / 16))
             <$> a2b_base64 s 2 (v mod 16) 0
    | 2 => cons (byte_of_N (leftchar * 16 + v / 4))
             <$> a2b_base64 s 3 (v mod 4) 0
    | _ => cons (byte_of_N (leftchar * 64 + v)) <$> a2b_base64 s 0 0 0
    end.
Proof.
  intros Hv. destruct (sextet_spec v Hv) as [Hpad Hval].
  cbn [a2b_base64]. rewrite bool_decide_eq_false_2 by done.
  by rewrite Hval.
Qed.

Ltac byte_bounds :=
  repeat match goal with
         | |- context [Byte.to_N ?b] =>
             let x := fresh "x" in
             let Hx := fresh "Hx" in
             pose proof (to_N_lt b) as Hx;
             generalize dependent (Byte.to_N b); intros x Hx
         end.

(** A group of four characters gives back its three bytes. *)
Lemma a2b_group (a b c : byte) (rest : bytes) :
  urlsafe_b64decode (urlsafe_b64encode (a :: b :: c :: rest))
  = (fun l => a :: b :: c :: l) <$> urlsafe_b64decode (urlsafe_b64encode rest).
Proof.
  unfold urlsafe_b64decode. cbn [urlsafe_b64encode].
  set (n := (Byte.to_N a * 65536 + Byte.to_N b * 256 + Byte.to_N c)%N).
  assert (n / 262144 < 64 /\ n / 4096 mod 64 < 64 /\ n / 64 mod 64 < 64
          /\ n mod 64 < 64)%N as (H1 & H2 & H3 & H4).
  { subst n. byte_bounds. split_and!; try (apply N.mod_upper_bound; lia).
    apply N.Div0.div_lt_upper_bound. lia. }
  rewrite !a2b_sextet by done.
  assert (byte_of_N (n / 262144 * 4 + n / 4096 mod 64 / 16) = a) as ->.
  { rewrite <- (byte_of_N_to_N a). f_equal. subst n. byte_bounds. lia. }
  assert (byte_of_N (n / 4096 mod 64 mod 16 * 16 + n / 64 mod 64 / 4) = b)
    as ->.
  { rewrite <- (byte_of_N_to_N b). f_equal. subst n. byte_bounds. lia. }
  assert (byte_of_N (n / 64 mod 64 mod 4 * 64 + n mod 64) = c) as ->.
  { rewrite <- (byte_of_N_to_N c). f_equal. subst n. byte_bounds. lia. }
  by destruct (a2b_base64 _ 0 0 0).
Qed.

(** Decoding undoes encoding. *)
Lemma urlsafe_b64decode_encode (data : bytes) :
  urlsafe_b64decode (urlsafe_b64encode data) = Some data.
Proof.
  induction data as [|a|a b|a b c rest IH] using list_ind3.
  - done.
  - unfold urlsafe_b64decode. cbn [urlsafe_b64encode].
    set (n := Byte.to_N a).
    assert (n < 256)%N as Ha by apply to_N_lt.
    rewrite !a2b_sextet by lia.
    assert (byte_of_N (n / 4 * 4 + n mod 4 * 16 / 16) = a) as ->.
    { rewrite <- (byte_of_N_to_N a). f_equal. lia. }
    done.
  - unfold urlsafe_b64decode. cbn [urlsafe_b64encode].
    set (n := (Byte.to_N a * 256 + Byte.to_N b)%N).
    assert (n / 1024 < 64 /\ n / 16 mod 64 < 64 /\ n mod 16 * 4 < 64)%N
      as (H1 & H2 & H3).
    { subst n. byte_bounds. split_and!; try (apply N.mod_upper_bound; lia).
      - apply N.Div0.div_lt_upper_bound. lia.
      - lia. }
    rewrite !a2b_sextet by done. cbn.
    assert (byte_of_N (n / 1024 * 4 + n / 16 mod 64 / 16) = a) as ->.
    { rewrite <- (byte_of_N_to_N a). f_equal. subst n. byte_bounds. lia. }
    assert (byte_of_N (n / 16 mod 64 mod 16 * 16 + n mod 16 * 4 / 4) = b)
      as ->.
    { rewrite <- (byte_of_N_to_N b). f_equal. subst n. byte_bounds. lia. }
    done.
  - by rewrite a2b_group, IH.
Qed.

(** Four characters for every three bytes, the last group padded. *)
Lemma length_urlsafe_b64encode (data : bytes) :
  length (urlsafe_b64encode data) = 4 * ((length data + 2) / 3).
Proof.
  induction data as [|a|a b|a b c rest IH] using list_ind3; try done.
  cbn [urlsafe_b64encode length]. rewrite IH.
  replace (S (S (S (length rest))) + 2) with (length rest + 2 + 1 * 3)
    by lia.
  rewrite Nat.div_add by done. lia.
Qed.

(** The first character of the text depends on the first byte only. *)
Lemma head_urlsafe_b64encode (a : byte) (rest : bytes) :
  head (urlsafe_b64encode (a :: rest)) = Some (sextet (Byte.to_N a / 4)).
Proof.
  destruct rest as [|b [|c rest]]; cbn [urlsafe_b64encode head].
  - done.
  - f_equal. f_equal. byte_bounds. lia.
  - f_equal. f_equal. byte_bounds. lia.
Qed.

End Base64Facts.

(* ===================================================================== *)
(** ** The cipher against its specification *)
(* ===================================================================== *)

Module CipherSpec.
Import Cipher BytesFacts CipherFacts Model.

(** C1 - Round-trip.  For every valid key [k] and every byte buffer [p],
    the empty one included, opening under [k] the token that sealing [p]
    under [k] produced returns exactly [p], whatever timestamp and nonce
    were drawn, for any block cipher whose decryption undoes its
    encryption. *)
Theorem open_seal_roundtrip (P : primitives) (k : bytes) (ts : N)
    (nonce p : bytes) :
  block_cipher_length P -> block_cipher_inverse P -> mac_length P ->
  valid_key k -> length nonce = NONCE_LEN ->
  open P k (seal P k ts nonce p) = inr p.
Proof.
  intros HE HD HM Hk Hn. unfold open.
  by rewrite open_log_sealed.
Qed.

Lemma open_seal_roundtrip_witness :
  open toy test_key (seal toy test_key 1751414400 test_nonce png_magic)
  = inr png_magic
  /\ open toy test_key (seal toy test_key 0 test_nonce []) = inr [].
Proof.
  split.
  - apply (open_seal_roundtrip toy test_key 1751414400 test_nonce png_magic);
      [ apply toy_block_cipher_length | apply toy_block_cipher_inverse
      | apply toy_mac_length | reflexivity | reflexivity ].
  - apply (open_seal_roundtrip toy test_key 0 test_nonce []);
      [ apply toy_block_cipher_length | apply toy_block_cipher_inverse
      | apply toy_mac_length | reflexivity | reflexivity ].
Defined.

(** Two tokens with different timestamp or nonce fields are different
    byte strings. *)
Lemma seal_fields_injective (P : primitives) k ts1 ts2 n1 n2 p :
  length n1 = NONCE_LEN -> length n2 = NONCE_LEN ->
  (ts1 < 2 ^ 64)%N -> (ts2 < 2 ^ 64)%N ->
  seal P k ts1 n1 p = seal P k ts2 n2 p -> ts1 = ts2 /\ n1 = n2.
Proof.
  intros Hn1 Hn2 Ht1 Ht2 Heq. rewrite !seal_fields in Heq.
  apply (f_equal tail) in Heq. cbn [tail] in Heq.
  apply app_inj_1 in Heq as [Hts Heq]; [|by rewrite !length_to_be].
  apply app_inj_1 in Heq as [Hn _]; [|congruence].
  split; [|done]. by apply (to_be_inj TS_LEN).
Qed.

(** C6 - Non-determinism of seal.  For a fixed valid key and plaintext,
    two calls to seal that drew different (timestamp, nonce) pairs
    produce different token byte strings, and each of the two tokens
    still opens to the plaintext under the key. *)
Theorem seal_nondeterministic (P : primitives) (k : bytes) (ts1 ts2 : N)
    (n1 n2 p : bytes) :
  block_cipher_length P -> block_cipher_inverse P -> mac_length P ->
  valid_key k -> length n1 = NONCE_LEN -> length n2 = NONCE_LEN ->
  (ts1 < 2 ^ 64)%N -> (ts2 < 2 ^ 64)%N ->
  (ts1, n1) <> (ts2, n2) ->
  seal P k ts1 n1 p <> seal P k ts2 n2 p
  /\ open P k (seal P k ts1 n1 p) = inr p
  /\ open P k (seal P k ts2 n2 p) = inr p.
Proof.
  intros HE HD HM Hk Hn1 Hn2 Ht1 Ht2 Hne. split.
  - intros Heq. apply seal_fields_injective in Heq as [-> ->]; done.
  - unfold open. by rewrite !open_log_sealed.
Qed.

Lemma seal_nondeterministic_witness :
  seal toy test_key 1751414400 test_nonce png_magic
  <> seal toy test_key 1751414400 (toy_urandom 7 16) png_magic
  /\ open toy test_key (seal toy test_key 1751414400 test_nonce png_magic)
     = inr png_magic
  /\ open toy test_key
       (seal toy test_key 1751414400 (toy_urandom 7 16) png_magic)
     = inr png_magic.
Proof.
  apply (seal_nondeterministic toy test_key 1751414400 1751414400
           test_nonce (toy_urandom 7 16) png_magic);
    [ apply toy_block_cipher_length | apply toy_block_cipher_inverse
    | apply toy_mac_length | reflexivity | reflexivity | reflexivity
    | reflexivity | reflexivity | discriminate ].
Defined.

(** C7, as stated, fails: the byte string the program gets from the
    cipher is not the raw concatenation of the fields but its URL-safe
    base64 text.  For the 3-byte plaintext of the concrete scenario it is
    100 bytes long and starts with the letter g (0x67), where the
    concatenation is 73 bytes long and starts with the version marker
    0x80. *)
Lemma token_is_text_not_raw :
  fernet_token <> fernet_raw
  /\ head fernet_token = Some x67 /\ head fernet_raw = Some x80
  /\ length fernet_token = 100 /\ length fernet_raw = 73
  /\ fernet_token
     = list_byte_of_string
         ("gAAAAABoZHaAZGVmZ2hpamtsbW5vcHFyc3YVyYLYEPbUvTM_MkD7-"
          ++ "EKpfTPivtn7sBGX3pRqD5ybHJnYETgY-cb_esp_CBe5Dg==").
Proof. vm_compute. split_and!; (reflexivity || discriminate). Qed.

(** PKCS7 padding: between one byte and a whole block of bytes is added,
    each holding the number of bytes added, and the padded plaintext is a
    whole number of blocks. *)
Lemma pad_pkcs7 (p : bytes) :
  exists n,
    1 <= n <= BLOCK /\ pad p = p ++ replicate n (byte_of_nat n)
    /\ Byte.to_nat (byte_of_nat n) = n
    /\ length (pad p) mod BLOCK = 0.
Proof.
  exists (BLOCK - length p mod BLOCK).
  pose proof (pad_amount p) as Hn. split_and!; try done; try lia.
  - apply to_nat_byte_of_nat. unfold BLOCK in *. lia.
  - rewrite length_pad, Nat.mul_comm. apply Nat.Div0.mod_mul.
Qed.

(** C7, amended - Token wire format.  The byte string returned by seal is
    the URL-safe base64 text of the concatenation version (1 byte),
    timestamp (8 bytes, big-endian), nonce (16 bytes), ciphertext (the
    PKCS7-padded plaintext encrypted block by block, a whole number of
    blocks), tag (HMAC-SHA256 of the preceding fields, 32 bytes):
    decoding the text gives exactly that concatenation, and the text has
    four characters for every three of its bytes.  For a 3-byte plaintext
    the first byte of the decoded token is the scheme's version, the
    ciphertext is exactly one block, and the text is 100 characters long.
    This holds for every version marker and every block cipher with
    16-byte blocks. *)
Theorem token_wire_format (version : byte)
    (enc dec : bytes -> bytes -> bytes) (k : bytes) (ts : N)
    (nonce p : bytes) :
  let P := with_hmac_sha256 version enc dec in
  block_cipher_length P -> valid_key k -> length nonce = NONCE_LEN ->
  let ct := cbc_encrypt P (length (pad p) / BLOCK) (enc_half k) nonce
              (pad p) in
  let body := [version] ++ to_be 8 ts ++ nonce ++ ct in
  let tag := Sha256.hmac_sha256 (sign_half k) body in
  let token := token_text P k ts nonce p in
  Base64.urlsafe_b64decode token = Some (body ++ tag)
  /\ length token = 4 * ((1 + 8 + 16 + length ct + 32 + 2) / 3)
  /\ head token = Some (Base64.sextet (Byte.to_N version / 4))
  /\ length (to_be 8 ts) = 8
  /\ from_be (to_be 8 ts) = (ts mod 2 ^ 64)%N
  /\ (exists n,
        1 <= n <= BLOCK /\ pad p = p ++ replicate n (byte_of_nat n)
        /\ Byte.to_nat (byte_of_nat n) = n
        /\ length (pad p) mod BLOCK = 0)
  /\ length ct = BLOCK * (length p / BLOCK + 1)
  /\ length tag = 32
  /\ (length p = 3 ->
      head (body ++ tag) = Some version /\ length ct = BLOCK
      /\ length (body ++ tag) = 73 /\ length token = 100).
Proof.
  intros P HE Hk Hn ct body tag token.
  assert (length ct = BLOCK * (length p / BLOCK + 1)) as Hct
    by by apply (length_ciphertext P).
  assert (length tag = 32) as Htag
    by apply Sha256Facts.length_hmac_sha256.
  assert (seal P k ts nonce p = body ++ tag) as Hseal.
  { rewrite seal_fields. subst body tag ct. cbn [app].
    by rewrite <- !app_assoc. }
  assert (length (body ++ tag) = 1 + 8 + 16 + length ct + 32) as Hraw.
  { rewrite length_app, Htag. subst body. cbn [app length].
    rewrite !length_app, length_to_be, Hn. unfold TS_LEN, NONCE_LEN. lia. }
  assert (length token = 4 * ((1 + 8 + 16 + length ct + 32 + 2) / 3))
    as Htoken.
  { subst token. unfold token_text.
    by rewrite Base64Facts.length_urlsafe_b64encode, Hseal, Hraw. }
  split_and!.
  - subst token. unfold token_text.
    by rewrite Base64Facts.urlsafe_b64decode_encode, Hseal.
  - done.
  - subst token. unfold token_text. rewrite seal_fields.
    apply Base64Facts.head_urlsafe_b64encode.
  - apply length_to_be.
  - by rewrite from_be_to_be.
  - apply pad_pkcs7.
  - done.
  - done.
  - intros Hp. rewrite Htoken, Hraw, Hct, Hp. done.
Qed.

Lemma token_wire_format_witness :
  Base64.urlsafe_b64decode fernet_token = Some fernet_raw
  /\ length fernet_token = 100
  /\ length (ciphertext fernet_primitives test_key test_nonce png_magic)
     = 16.
Proof.
  destruct (token_wire_format x80 Aes.aes128_encrypt Aes.aes128_decrypt
              test_key 1751414400 test_nonce png_magic
              (fun ek b _ _ => AesFacts.length_aes128_encrypt ek b)
              eq_refl eq_refl)
    as (Hdec & _ & _ & _ & _ & _ & _ & _ & Hthree).
  destruct (Hthree eq_refl) as (_ & Hct & _ & Hlen).
  split_and!; [| exact Hlen | exact Hct].
  etransitivity; [exact Hdec|]. by vm_compute.
Defined.

End CipherSpec.

(* ===================================================================== *)
(** ** Properties of the program *)
(* ===================================================================== *)

Module AppFacts.
Import App.

Section Steps.
Context {L : Type} (resolve : path -> file).

(** *** Running a computation step by step *)

Lemma bind_ok {A B} (m : M L A) (k : A -> M L B) w a w' :
  m w = (inr a, w') -> bind m k w = k a w'.
Proof. unfold bind. by intros ->. Qed.

Lemma bind_err {A B} (m : M L A) (k : A -> M L B) w e w' :
  m w = (inl e, w') -> bind m k w = (inl e, w').
Proof. unfold bind. by intros ->. Qed.

Lemma try_except_ok {A} (body : M L A) h w a w' :
  body w = (inr a, w') -> try_except body h w = (inr a, w').
Proof. unfold try_except. by intros ->. Qed.

Lemma try_except_err {A} (body : M L A) h w e w' :
  body w = (inl e, w') -> try_except body h w = h e w'.
Proof. unfold try_except. by intros ->. Qed.

Lemma ask_dialog_eq w :
  ask_dialog (L:=L) w
  = (inr (next_answer (dialogs w)), set_dialogs (tail (dialogs w)) w).
Proof. done. Qed.

(** *** The file system operations *)

Lemma read_bytes_ok p w b :
  faults w !! resolve p = None -> fs w !! resolve p = Some b ->
  read_bytes (L:=L) resolve p w = (inr b, w).
Proof. intros Hl Hfs. unfold read_bytes. by rewrite Hl, Hfs. Qed.

Lemma read_bytes_fault p w k :
  faults w !! resolve p = Some k ->
  read_bytes (L:=L) resolve p w = (inl (os_exn k p), w).
Proof. intros Hl. unfold read_bytes. by rewrite Hl. Qed.

Lemma read_bytes_world p w :
  let r := read_bytes (L:=L) resolve p w in
  snd r = w /\ (forall b, fst r = inr b -> fs w !! resolve p = Some b).
Proof.
  unfold read_bytes. destruct (faults w !! resolve p); [done|].
  destruct (fs w !! resolve p) as [x|]; cbn; split; try done.
  by intros b [= ->].
Qed.

Lemma write_bytes_ok p d w :
  faults w !! resolve p = None ->
  write_bytes (L:=L) resolve p d w
  = (inr tt, set_fs (<[resolve p := d]> (fs w)) w).
Proof. intros Hl. unfold write_bytes. by rewrite Hl. Qed.

Lemma write_bytes_fault p d w k :
  faults w !! resolve p = Some k ->
  write_bytes (L:=L) resolve p d w = (inl (os_exn k p), w).
Proof. intros Hl. unfold write_bytes. by rewrite Hl. Qed.

Lemma write_bytes_world p d w :
  let r := write_bytes (L:=L) resolve p d w in
  (fst r = inr tt /\ snd r = set_fs (<[resolve p := d]> (fs w)) w)
  \/ (exists e, fst r = inl e /\ snd r = w).
Proof.
  unfold write_bytes. destruct (faults w !! resolve p); cbn; eauto.
Qed.

Lemma path_exists_Some p w b :
  fs w !! resolve p = Some b -> path_exists (L:=L) resolve p w = (inr true, w).
Proof. intros Hfs. unfold path_exists. by rewrite Hfs. Qed.

Lemma path_exists_None p w :
  fs w !! resolve p = None -> path_exists (L:=L) resolve p w = (inr false, w).
Proof. intros Hfs. unfold path_exists. by rewrite Hfs. Qed.

End Steps.

Section KeyStore.
Context {L : Type} (resolve : path -> file) (lib : library L).

(** *** The key utilities, case by case *)

Lemma generate_key_ok w :
  faults w !! key_file resolve = None ->
  _generate_key resolve lib w
  = (inr (generate_key lib (entropy w)), key_created resolve lib w).
Proof.
  intros Hl. unfold _generate_key.
  rewrite (bind_ok _ _ w (entropy w) (set_entropy (S (entropy w)) w))
    by done.
  erewrite bind_ok by (by apply write_bytes_ok). done.
Qed.

Lemma generate_key_fault w k :
  faults w !! key_file resolve = Some k ->
  _generate_key resolve lib w
  = (inl (os_exn k KEY_FILE), set_entropy (S (entropy w)) w).
Proof.
  intros Hl. unfold _generate_key.
  rewrite (bind_ok _ _ w (entropy w) (set_entropy (S (entropy w)) w))
    by done.
  erewrite bind_err by (by apply write_bytes_fault). done.
Qed.

Lemma load_key_absent w :
  fs w !! key_file resolve = None -> faults w !! key_file resolve = None ->
  _load_key resolve lib w
  = (inr (generate_key lib (entropy w)), key_created resolve lib w).
Proof.
  intros Hfs Hl. unfold _load_key.
  erewrite bind_ok by (by apply path_exists_None).
  by apply generate_key_ok.
Qed.

Lemma load_key_absent_fault w k :
  fs w !! key_file resolve = None -> faults w !! key_file resolve = Some k ->
  _load_key resolve lib w
  = (inl (os_exn k KEY_FILE), set_entropy (S (entropy w)) w).
Proof.
  intros Hfs Hl. unfold _load_key.
  erewrite bind_ok by (by apply path_exists_None).
  by apply generate_key_fault.
Qed.

Lemma load_key_present w c :
  fs w !! key_file resolve = Some c -> faults w !! key_file resolve = None ->
  _load_key resolve lib w = (inr c, w).
Proof.
  intros Hfs Hl. unfold _load_key.
  erewrite bind_ok by (by eapply path_exists_Some).
  by apply read_bytes_ok.
Qed.

Lemma load_key_present_fault w c k :
  fs w !! key_file resolve = Some c ->
  faults w !! key_file resolve = Some k ->
  _load_key resolve lib w = (inl (os_exn k KEY_FILE), w).
Proof.
  intros Hfs Hl. unfold _load_key.
  erewrite bind_ok by (by eapply path_exists_Some).
  by apply read_bytes_fault.
Qed.

(** What [_load_key] may do to the world: at most create the key file. *)
Lemma load_key_world w :
  let r := _load_key resolve lib w in
  key_file_only resolve lib w (snd r)
  /\ faults (snd r) = faults w /\ dialogs (snd r) = dialogs w
  /\ shown (snd r) = shown w
  /\ (forall k, fst r = inr k -> fs (snd r) !! key_file resolve = Some k).
Proof.
  intros r. subst r. unfold key_file_only.
  destruct (fs w !! key_file resolve) as [c|] eqn:Hfs;
    destruct (faults w !! key_file resolve) as [k|] eqn:Hl.
  - rewrite (load_key_present_fault w c k) by done. split_and!; auto; done.
  - rewrite (load_key_present w c) by done. split_and!; auto.
    by intros k [= <-].
  - rewrite (load_key_absent_fault w k) by done. split_and!; auto; done.
  - rewrite (load_key_absent w) by done. split_and!; auto.
    intros k [= <-]. apply lookup_insert_eq.
Qed.

Lemma get_fernet_present w key :
  fs w !! key_file resolve = Some key ->
  faults w !! key_file resolve = None ->
  _get_fernet resolve lib w
  = (match Fernet lib key with
     | inl e => inl (LibraryError e)
     | inr c => inr c
     end, w).
Proof.
  intros Hfs Hl. unfold _get_fernet.
  erewrite bind_ok by (by apply load_key_present). unfold lift.
  by destruct (Fernet lib key).
Qed.

Lemma get_fernet_absent w :
  fs w !! key_file resolve = None -> faults w !! key_file resolve = None ->
  _get_fernet resolve lib w
  = (match Fernet lib (generate_key lib (entropy w)) with
     | inl e => inl (LibraryError e)
     | inr c => inr c
     end, key_created resolve lib w).
Proof.
  intros Hfs Hl. unfold _get_fernet.
  erewrite bind_ok by (by apply load_key_absent). unfold lift.
  by destruct (Fernet lib _).
Qed.

Lemma get_fernet_world w :
  let r := _get_fernet resolve lib w in
  key_file_only resolve lib w (snd r)
  /\ faults (snd r) = faults w /\ dialogs (snd r) = dialogs w
  /\ shown (snd r) = shown w
  /\ (forall c, fst r = inr c ->
        exists key,
          fs (snd r) !! key_file resolve = Some key
          /\ Fernet lib key = inr c).
Proof.
  intros r. subst r. unfold _get_fernet, bind.
  pose proof (load_key_world w) as (Hk & Hl & Hd & Hs & Hkey).
  destruct (_load_key resolve lib w) as [[e|key] w'] eqn:Hload;
    cbn [fst snd] in *.
  - split_and!; auto; done.
  - unfold lift. destruct (Fernet lib key) as [e|c] eqn:HF; cbn.
    + split_and!; auto; done.
    + split_and!; auto. intros c' [= <-]. eauto.
Qed.

End KeyStore.

Section Files.
Context {L : Type} (resolve : path -> file) (lib : library L).
Context (str : exn L -> string).

(** *** Every run of [encrypt_file] and of [decrypt_file] *)

Lemma encrypt_file_outcome w :
  let r := encrypt_file resolve lib str w in
  fst r = inr tt
  /\ (next_answer (dialogs w) = EmptyString -> fs (snd r) = fs w)
  /\ (next_answer (tail (dialogs w)) = EmptyString ->
      key_file_only resolve lib w (snd r))
  /\ (key_file_only resolve lib w (snd r)
      \/ destination_written resolve lib (encrypted lib) w (snd r)).
Proof.
  intros r. subst r.
  unfold encrypt_file, askopenfilename, asksaveasfilename.
  erewrite bind_ok by apply ask_dialog_eq.
  set (w1 := set_dialogs (tail (dialogs w)) w).
  assert (key_file_only resolve lib w w1) as Hk1 by (by left).
  destruct (bool_decide (next_answer (dialogs w) = EmptyString)) eqn:Ha1.
  { apply bool_decide_eq_true_1 in Ha1. cbn. split_and!; auto. }
  apply bool_decide_eq_false_1 in Ha1.
  unfold try_except, bind, show.
  pose proof (read_bytes_world (L:=L) resolve (next_answer (dialogs w)) w1)
    as [Hw2 Hdata].
  destruct (read_bytes _ _ w1) as [[e|data] w2]; cbn [fst snd] in *; subst w2.
  { cbn. split_and!; auto; done. }
  specialize (Hdata _ eq_refl).
  pose proof (get_fernet_world resolve lib w1) as (Hk & Hl & Hd & Hs & Hkey).
  destruct (_get_fernet resolve lib w1) as [[e|c] w3]; cbn [fst snd] in *.
  { cbn. split_and!; auto; done. }
  destruct (Hkey _ eq_refl) as (key & Hkf & HF).
  unfold cipher_encrypt, bind, draw, lift.
  destruct (encrypt lib c (entropy w3) data) as [e|token] eqn:Henc; cbn.
  { split_and!; auto; done. }
  rewrite Hd. cbn.
  destruct (bool_decide (next_answer (tail (dialogs w)) = EmptyString))
    eqn:Ha2.
  { apply bool_decide_eq_true_1 in Ha2. cbn. split_and!; auto; done. }
  apply bool_decide_eq_false_1 in Ha2.
  unfold ret. set (w4 := set_dialogs _ _).
  pose proof (write_bytes_world (L:=L) resolve
                (next_answer (tail (dialogs w))) token w4)
    as [[Hr Hw]|(e & Hr & Hw)];
    destruct (write_bytes _ _ token w4) as [[e'|[]] w5];
    cbn [fst snd] in *; simplify_eq.
  - cbn. split_and!; auto; try done.
    right. exists data, key, c, token, w3. split_and!; auto.
    by exists (entropy w3).
  - cbn. split_and!; auto; done.
Qed.

Lemma decrypt_file_outcome w :
  let r := decrypt_file resolve lib str w in
  fst r = inr tt
  /\ (next_answer (dialogs w) = EmptyString -> fs (snd r) = fs w)
  /\ (next_answer (tail (dialogs w)) = EmptyString ->
      key_file_only resolve lib w (snd r))
  /\ (key_file_only resolve lib w (snd r)
      \/ destination_written resolve lib (decrypted lib) w (snd r)).
Proof.
  intros r. subst r.
  unfold decrypt_file, askopenfilename, asksaveasfilename.
  erewrite bind_ok by apply ask_dialog_eq.
  set (w1 := set_dialogs (tail (dialogs w)) w).
  assert (key_file_only resolve lib w w1) as Hk1 by (by left).
  destruct (bool_decide (next_answer (dialogs w) = EmptyString)) eqn:Ha1.
  { apply bool_decide_eq_true_1 in Ha1. cbn. split_and!; auto. }
  apply bool_decide_eq_false_1 in Ha1.
  unfold try_except, bind, show.
  pose proof (read_bytes_world (L:=L) resolve (next_answer (dialogs w)) w1)
    as [Hw2 Hdata].
  destruct (read_bytes _ _ w1) as [[e|data] w2]; cbn [fst snd] in *; subst w2.
  { cbn. split_and!; auto; done. }
  specialize (Hdata _ eq_refl).
  pose proof (get_fernet_world resolve lib w1) as (Hk & Hl & Hd & Hs & Hkey).
  destruct (_get_fernet resolve lib w1) as [[e|c] w3]; cbn [fst snd] in *.
  { cbn. split_and!; auto; done. }
  destruct (Hkey _ eq_refl) as (key & Hkf & HF).
  unfold cipher_decrypt, lift.
  destruct (decrypt lib c data) as [e|plain] eqn:Hdec; cbn.
  { split_and!; auto; done. }
  rewrite Hd. cbn.
  destruct (bool_decide (next_answer (tail (dialogs w)) = EmptyString))
    eqn:Ha2.
  { apply bool_decide_eq_true_1 in Ha2. cbn. split_and!; auto; done. }
  apply bool_decide_eq_false_1 in Ha2.
  unfold ret. set (w4 := set_dialogs _ _).
  pose proof (write_bytes_world (L:=L) resolve
                (next_answer (tail (dialogs w))) plain w4)
    as [[Hr Hw]|(e & Hr & Hw)];
    destruct (write_bytes _ _ plain w4) as [[e'|[]] w5];
    cbn [fst snd] in *; simplify_eq.
  - cbn. split_and!; auto; try done.
    right. exists data, key, c, plain, w3. split_and!; auto.
  - cbn. split_and!; auto; done.
Qed.

(** *** Successful runs *)

Lemma encrypt_file_success w src dst rest data c wk token :
  dialogs w = src :: dst :: rest ->
  src <> EmptyString -> dst <> EmptyString ->
  faults w !! resolve src = None -> faults w !! resolve dst = None ->
  fs w !! resolve src = Some data ->
  _get_fernet resolve lib (set_dialogs (dst :: rest) w) = (inr c, wk) ->
  encrypt lib c (entropy wk) data = inr token ->
  encrypt_file resolve lib str w
  = (inr tt,
     set_shown
       (shown w ++ [showinfo APP_NAME "Image encrypted successfully! ✔️"])
       (set_fs (<[resolve dst := token]> (fs wk))
          (set_dialogs rest (set_entropy (S (entropy wk)) wk)))).
Proof.
  intros Hd Hs Hdst Hls Hld Hdata Hget Henc.
  pose proof (get_fernet_world resolve lib (set_dialogs (dst :: rest) w))
    as (_ & Hl & Hdl & Hsh & _).
  rewrite Hget in Hl, Hdl, Hsh.
  cbn [fst snd faults dialogs shown set_dialogs] in Hl, Hdl, Hsh.
  unfold encrypt_file, askopenfilename, asksaveasfilename.
  erewrite bind_ok by apply ask_dialog_eq.
  rewrite Hd. cbn [next_answer tail].
  rewrite bool_decide_eq_false_2 by done.
  apply try_except_ok.
  erewrite bind_ok by (by apply read_bytes_ok).
  erewrite bind_ok by apply Hget.
  erewrite bind_ok; cycle 1.
  { unfold cipher_encrypt. erewrite bind_ok by reflexivity.
    rewrite Henc. reflexivity. }
  erewrite bind_ok by apply ask_dialog_eq.
  cbn [next_answer tail dialogs set_entropy set_dialogs].
  rewrite Hdl. cbn [next_answer tail].
  rewrite bool_decide_eq_false_2 by done.
  erewrite bind_ok by (apply write_bytes_ok; cbn; by rewrite Hl).
  unfold show. cbn. by rewrite Hsh.
Qed.

Lemma decrypt_file_success w src dst rest data c wk plain :
  dialogs w = src :: dst :: rest ->
  src <> EmptyString -> dst <> EmptyString ->
  faults w !! resolve src = None -> faults w !! resolve dst = None ->
  fs w !! resolve src = Some data ->
  _get_fernet resolve lib (set_dialogs (dst :: rest) w) = (inr c, wk) ->
  decrypt lib c data = inr plain ->
  decrypt_file resolve lib str w
  = (inr tt,
     set_shown
       (shown w ++ [showinfo APP_NAME "Image decrypted successfully! ✔️"])
       (set_fs (<[resolve dst := plain]> (fs wk)) (set_dialogs rest wk))).
Proof.
  intros Hd Hs Hdst Hls Hld Hdata Hget Hdec.
  pose proof (get_fernet_world resolve lib (set_dialogs (dst :: rest) w))
    as (_ & Hl & Hdl & Hsh & _).
  rewrite Hget in Hl, Hdl, Hsh.
  cbn [fst snd faults dialogs shown set_dialogs] in Hl, Hdl, Hsh.
  unfold decrypt_file, askopenfilename, asksaveasfilename.
  erewrite bind_ok by apply ask_dialog_eq.
  rewrite Hd. cbn [next_answer tail].
  rewrite bool_decide_eq_false_2 by done.
  apply try_except_ok.
  erewrite bind_ok by (by apply read_bytes_ok).
  erewrite bind_ok by apply Hget.
  erewrite bind_ok; cycle 1.
  { unfold cipher_decrypt. rewrite Hdec. reflexivity. }
  erewrite bind_ok by apply ask_dialog_eq.
  rewrite Hdl. cbn [next_answer tail].
  rewrite bool_decide_eq_false_2 by done.
  erewrite bind_ok by (apply write_bytes_ok; cbn; by rewrite Hl).
  unfold show. cbn. by rewrite Hsh.
Qed.

End Files.

End AppFacts.

(* ===================================================================== *)
(** ** The program against its specification *)
(* ===================================================================== *)

Module AppSpec.
Import Cipher App Model AppFacts.

Section Claims.
Context {L : Type} (resolve : path -> file) (lib : library L).
Context (str : exn L -> string).

(** C5 - Key persistence and idempotence.  Two consecutive calls of
    [_load_key] against the same storage give the same result, and the
    second one never modifies the store; a key returned by the first call
    is in the key file afterwards, and the second call returns it and
    leaves the whole world as it is.  When no key file exists (and the
    location can be opened) the first call generates a key and persists
    it; when one exists it is returned unchanged and nothing is written. *)
Theorem load_key_twice (w : world) :
  let r1 := _load_key resolve lib w in
  let r2 := _load_key resolve lib (snd r1) in
  fst r2 = fst r1
  /\ fs (snd r2) = fs (snd r1)
  /\ (forall k, fst r1 = inr k ->
        fs (snd r1) !! key_file resolve = Some k /\ r2 = (inr k, snd r1))
  /\ (fs w !! key_file resolve = None ->
      faults w !! key_file resolve = None ->
        r1 = (inr (generate_key lib (entropy w)), key_created resolve lib w)
        /\ fs (snd r1)
           = <[key_file resolve := generate_key lib (entropy w)]> (fs w))
  /\ (forall c, fs w !! key_file resolve = Some c ->
        faults w !! key_file resolve = None ->
        r1 = (inr c, w)).
Proof.
  intros r1 r2. subst r2 r1.
  destruct (fs w !! key_file resolve) as [c|] eqn:Hfs;
    destruct (faults w !! key_file resolve) as [k|] eqn:Hl.
  - rewrite (load_key_present_fault resolve lib w c k) by done.
    cbn [snd fst].
    rewrite (load_key_present_fault resolve lib w c k) by done.
    split_and!; done.
  - rewrite (load_key_present resolve lib w c) by done. cbn [snd fst].
    rewrite (load_key_present resolve lib w c) by done.
    split_and!; try done.
    + by intros k [= <-].
    + by intros c' [= <-] _.
  - rewrite (load_key_absent_fault resolve lib w k) by done.
    cbn [snd fst].
    rewrite (load_key_absent_fault resolve lib _ k) by done.
    split_and!; done.
  - rewrite (load_key_absent resolve lib w) by done. cbn [snd fst].
    assert (fs (key_created resolve lib w) !! key_file resolve
            = Some (generate_key lib (entropy w))) as Hk
      by apply lookup_insert_eq.
    rewrite (load_key_present resolve lib _ _ Hk) by done.
    split_and!; try done.
    by intros k [= <-].
Qed.

(** C8, amended - Corrupt key detection.  [_load_key] does not examine the
    persisted key: content that the cipher library rejects is returned as
    it is, without any error.  The key is rejected when the cipher is
    built from it, in [_get_fernet], with the library's error, which is
    not one of the storage errors; that makes
    every [encrypt_file] and [decrypt_file] fail once a source file has
    been read (the error is shown, nothing is written), and in no run is
    the file system modified: the stored key is neither repaired nor
    replaced. *)
Theorem corrupt_key_rejected_by_cipher (w : world) (key : bytes) (e : L) :
  fs w !! key_file resolve = Some key ->
  faults w !! key_file resolve = None ->
  Fernet lib key = inl e ->
  _load_key resolve lib w = (inr key, w)
  /\ _get_fernet resolve lib w = (inl (LibraryError e), w)
  /\ (forall p, LibraryError e <> PermissionError p
                /\ LibraryError e <> FileNotFoundError p
                /\ forall n, LibraryError e <> OSError n p)
  /\ fs (snd (encrypt_file resolve lib str w)) = fs w
  /\ fs (snd (decrypt_file resolve lib str w)) = fs w
  /\ (forall src rest data,
        dialogs w = src :: rest -> src <> EmptyString ->
        faults w !! resolve src = None ->
        fs w !! resolve src = Some data ->
        encrypt_file resolve lib str w
        = (inr tt,
           set_shown
             (shown w ++ [showerror APP_NAME
                            ("Encryption failed:" ++ newline
                               ++ str (LibraryError e))])
             (set_dialogs rest w))
        /\ decrypt_file resolve lib str w
           = (inr tt,
              set_shown
                (shown w ++ [showerror APP_NAME
                               ("Decryption failed:" ++ newline
                                  ++ str (LibraryError e))])
                (set_dialogs rest w))).
Proof.
  intros Hkey Hl HF.
  assert (forall d, _get_fernet resolve lib (set_dialogs d w)
                    = (inl (LibraryError e), set_dialogs d w)) as Hget.
  { intros d. rewrite (get_fernet_present resolve lib _ key) by done.
    by rewrite HF. }
  split_and!.
  - by apply load_key_present.
  - rewrite (get_fernet_present resolve lib _ key) by done. by rewrite HF.
  - done.
  - unfold encrypt_file, askopenfilename.
    erewrite bind_ok by apply ask_dialog_eq.
    destruct (bool_decide _); [done|].
    unfold try_except, bind.
    pose proof (read_bytes_world (L:=L) resolve (next_answer (dialogs w))
                  (set_dialogs (tail (dialogs w)) w)) as [Hw2 _].
    destruct (read_bytes _ _ _) as [[e'|data] w2];
      cbn [fst snd] in *; subst w2; [done|].
    by rewrite Hget.
  - unfold decrypt_file, askopenfilename.
    erewrite bind_ok by apply ask_dialog_eq.
    destruct (bool_decide _); [done|].
    unfold try_except, bind.
    pose proof (read_bytes_world (L:=L) resolve (next_answer (dialogs w))
                  (set_dialogs (tail (dialogs w)) w)) as [Hw2 _].
    destruct (read_bytes _ _ _) as [[e'|data] w2];
      cbn [fst snd] in *; subst w2; [done|].
    by rewrite Hget.
  - intros src rest data Hd Hne Hsl Hdata. split.
    + unfold encrypt_file, askopenfilename.
      erewrite bind_ok by apply ask_dialog_eq.
      rewrite Hd. cbn [next_answer tail].
      rewrite bool_decide_eq_false_2 by done.
      rewrite (try_except_err _ _ _ (LibraryError e) (set_dialogs rest w));
        [done|].
      erewrite bind_ok by (by apply read_bytes_ok).
      by apply bind_err.
    + unfold decrypt_file, askopenfilename.
      erewrite bind_ok by apply ask_dialog_eq.
      rewrite Hd. cbn [next_answer tail].
      rewrite bool_decide_eq_false_2 by done.
      rewrite (try_except_err _ _ _ (LibraryError e) (set_dialogs rest w));
        [done|].
      erewrite bind_ok by (by apply read_bytes_ok).
      by apply bind_err.
Qed.


(** X4 - Round trip of the two file operations.  Encrypting a file and then
    decrypting the result, under a key file that is valid or absent,
    writes the original bytes to the final destination, for any cipher
    library whose decryption undoes its encryption under that key, as long
    as the encrypted file is not the key file (under whatever name). *)
Theorem encrypt_then_decrypt_file (w : world) (src enc enc' dst : path)
    (rest : list string) (data key : bytes) (c : cipher lib) :
  dialogs w = src :: enc :: enc' :: dst :: rest ->
  src <> EmptyString -> enc <> EmptyString ->
  enc' <> EmptyString -> dst <> EmptyString ->
  resolve enc' = resolve enc ->
  faults w !! resolve src = None -> faults w !! resolve enc = None ->
  faults w !! resolve dst = None ->
  faults w !! key_file resolve = None ->
  fs w !! resolve src = Some data -> resolve enc <> key_file resolve ->
  (fs w !! key_file resolve = Some key
   \/ (fs w !! key_file resolve = None
       /\ key = generate_key lib (entropy w))) ->
  Fernet lib key = inr c ->
  (forall n, exists token,
      encrypt lib c n data = inr token /\ decrypt lib c token = inr data) ->
  let w1 := snd (encrypt_file resolve lib str w) in
  let w2 := snd (decrypt_file resolve lib str w1) in
  fst (decrypt_file resolve lib str w1) = inr tt
  /\ fs w2 !! resolve dst = Some data
  /\ fs w2 !! key_file resolve
     = (if bool_decide (resolve dst = key_file resolve) then Some data
        else Some key).
Proof.
  intros Hd Hs He He' Hdst Hsame Hls Hle Hld Hlk Hdata Hek Hkey HF Hlaw
    w1 w2.
  (* the cipher obtained by the first run *)
  assert (exists wk,
             _get_fernet resolve lib
               (set_dialogs (enc :: enc' :: dst :: rest) w)
             = (inr c, wk)
             /\ fs wk !! key_file resolve = Some key
             /\ fs wk !! resolve src = Some data
             /\ faults wk = faults w /\ shown wk = shown w
             /\ dialogs wk = enc :: enc' :: dst :: rest)
    as (wk & Hget & Hkk & Hks & Hkl & Hksh & Hkd).
  { destruct Hkey as [Hkey|[Hkey ->]].
    - eexists. rewrite (get_fernet_present resolve lib _ key) by done.
      rewrite HF. split_and!; done.
    - eexists. rewrite get_fernet_absent by done.
      cbn [entropy set_dialogs]. rewrite HF.
      split_and!; try done.
      + apply lookup_insert_eq.
      + unfold key_created. cbn [fs set_fs set_entropy set_dialogs].
        rewrite lookup_insert_ne; [done|]. intros Heq.
        rewrite <- Heq, Hkey in Hdata. discriminate. }
  destruct (Hlaw (entropy wk)) as (token & Henc & Hdec).
  assert (encrypt_file resolve lib str w
          = (inr tt,
             set_shown
               (shown w
                  ++ [showinfo APP_NAME "Image encrypted successfully! ✔️"])
               (set_fs (<[resolve enc := token]> (fs wk))
                  (set_dialogs (enc' :: dst :: rest)
                     (set_entropy (S (entropy wk)) wk))))) as Hrun1
    by (by eapply encrypt_file_success).
  subst w2 w1. rewrite Hrun1. cbn [snd].
  set (w1 := set_shown _ _).
  assert (_get_fernet resolve lib (set_dialogs (dst :: rest) w1)
          = (inr c, set_dialogs (dst :: rest) w1)) as Hget1.
  { rewrite (get_fernet_present resolve lib _ key); [by rewrite HF| |].
    - cbn. by rewrite lookup_insert_ne.
    - cbn. by rewrite Hkl. }
  rewrite (decrypt_file_success resolve lib str w1 enc' dst rest token c
             (set_dialogs (dst :: rest) w1) data);
    try done; cycle 1.
  { cbn. by rewrite Hkl, Hsame. }
  { cbn. by rewrite Hkl. }
  { cbn. rewrite Hsame. apply lookup_insert_eq. }
  cbn. split_and!; [done|apply lookup_insert_eq|].
  case_bool_decide as Hdk.
  - rewrite <- Hdk. apply lookup_insert_eq.
  - rewrite !lookup_insert_ne by done. done.
Qed.

(** C10 - No escaping exceptions and no partial output.  [encrypt_file]
    and [decrypt_file] always return normally: every exception raised
    while reading, obtaining the cipher, encrypting or decrypting, or
    writing is caught.  When the first dialog is cancelled the file system
    is left as it is; when the second one is cancelled no destination is
    written (at most the key file was created).  In every run, either no
    destination was written, or the source was read, the cipher was built
    and the cipher operation succeeded, and the destination holds its
    result. *)
Theorem file_operations_contained (w : world) :
  let enc := encrypt_file resolve lib str w in
  let dec := decrypt_file resolve lib str w in
  (fst enc = inr tt /\ fst dec = inr tt)
  /\ (next_answer (dialogs w) = EmptyString ->
      fs (snd enc) = fs w /\ fs (snd dec) = fs w)
  /\ (next_answer (tail (dialogs w)) = EmptyString ->
      key_file_only resolve lib w (snd enc)
      /\ key_file_only resolve lib w (snd dec))
  /\ (key_file_only resolve lib w (snd enc)
      \/ destination_written resolve lib (encrypted lib) w (snd enc))
  /\ (key_file_only resolve lib w (snd dec)
      \/ destination_written resolve lib (decrypted lib) w (snd dec)).
Proof.
  intros enc dec.
  destruct (encrypt_file_outcome resolve lib str w)
    as (He1 & He2 & He3 & He4).
  destruct (decrypt_file_outcome resolve lib str w)
    as (Hd1 & Hd2 & Hd3 & Hd4).
  split_and!; auto.
Qed.

End Claims.

(** The modelled cipher, as a library, undoes its own encryption under
    every key its constructor accepts. *)
Lemma spec_library_roundtrip (P : primitives)
    (urandom : nat -> nat -> bytes) (clock : nat -> N)
    (key : bytes) (c : cipher (spec_library P urandom clock))
    (data : bytes) (n : nat) :
  block_cipher_length P -> block_cipher_inverse P -> mac_length P ->
  (forall m, length (urandom m NONCE_LEN) = NONCE_LEN) ->
  Fernet (spec_library P urandom clock) key = inr c ->
  exists token,
    encrypt (spec_library P urandom clock) c n data = inr token
    /\ decrypt (spec_library P urandom clock) c token = inr data.
Proof.
  intros HE HD HM Hrand HF. cbn [Fernet spec_library] in HF.
  case_bool_decide as Hlen; [|done]. injection HF as <-.
  exists (seal P key (clock n) (urandom n NONCE_LEN) data).
  split; [done|]. cbn [decrypt spec_library]. unfold open.
  by rewrite CipherFacts.open_log_sealed.
Qed.

(** *** The claims on concrete worlds *)

Lemma encrypt_then_decrypt_file_witness :
  fs (snd (decrypt_file abspath toy_library toy_str
             (snd (encrypt_file abspath toy_library toy_str w_roundtrip))))
    !! File "/img/b.png"
  = Some png_magic.
Proof.
  destruct (encrypt_then_decrypt_file abspath toy_library toy_str
              w_roundtrip "/img/a.png" "/img/a.enc" "/img/a.enc"
              "/img/b.png" [] png_magic test_key3 test_key3)
    as (_ & Hdst & _);
    [ reflexivity | discriminate | discriminate | discriminate
    | discriminate | reflexivity
    | by vm_compute | by vm_compute | by vm_compute | by vm_compute
    | reflexivity | discriminate | right; split; reflexivity | reflexivity
    | | exact Hdst ].
  intros n.
  apply (spec_library_roundtrip toy toy_urandom toy_clock test_key3);
    [ apply CipherFacts.toy_block_cipher_length
    | apply CipherFacts.toy_block_cipher_inverse
    | apply CipherFacts.toy_mac_length
    | intros m; unfold toy_urandom; by rewrite length_map, length_seq
    | reflexivity ].
Defined.

Lemma load_key_twice_witness :
  _load_key abspath toy_library w_fresh
  = (inr test_key3, key_created abspath toy_library w_fresh)
  /\ _load_key abspath toy_library (key_created abspath toy_library w_fresh)
     = (inr test_key3, key_created abspath toy_library w_fresh).
Proof.
  destruct (load_key_twice abspath toy_library w_fresh)
    as (_ & _ & Hsame & Hnew & _).
  destruct (Hnew eq_refl) as [Hfirst _]; [by vm_compute|].
  split; [exact Hfirst|].
  destruct (Hsame test_key3) as [_ Hsecond]; [by rewrite Hfirst|].
  rewrite Hfirst in Hsecond. exact Hsecond.
Defined.

(** C8, as stated, fails: the key file of [w_corrupt] holds three bytes,
    which is not a Key and which the cipher rejects, yet [_load_key]
    signals nothing and returns the three bytes. *)
Lemma corrupt_key_not_signalled :
  ~ valid_key corrupt_key
  /\ Fernet toy_library corrupt_key = inl CorruptKeyError
  /\ _load_key abspath toy_library w_corrupt = (inr corrupt_key, w_corrupt).
Proof. split_and!; [discriminate | reflexivity | reflexivity]. Qed.

Lemma corrupt_key_rejected_by_cipher_witness :
  _get_fernet abspath toy_library w_corrupt
  = (inl (LibraryError CorruptKeyError), w_corrupt)
  /\ fs (snd (encrypt_file abspath toy_library toy_str w_corrupt))
     = fs w_corrupt.
Proof.
  destruct (corrupt_key_rejected_by_cipher abspath toy_library toy_str
              w_corrupt corrupt_key CorruptKeyError)
    as (_ & Hget & _ & Henc & _);
    [reflexivity | by vm_compute | reflexivity |].
  split; [exact Hget | exact Henc].
Defined.



Lemma file_operations_contained_witness :
  fst (encrypt_file abspath toy_library toy_str w_fresh) = inr tt
  /\ fst (decrypt_file abspath toy_library toy_str w_token) = inr tt.
Proof.
  destruct (file_operations_contained abspath toy_library toy_str w_fresh)
    as [[Henc _] _].
  destruct (file_operations_contained abspath toy_library toy_str w_token)
    as [[_ Hdec] _].
  split; [exact Henc | exact Hdec].
Defined.

End AppSpec.

(* ===================================================================== *)
(** ** More on the key utilities and the file operations *)
(* ===================================================================== *)

Module AppMore.
Import App Gui AppFacts.

Section KeyStore.
Context {L : Type} (resolve : path -> file) (lib : library L).

(** X1 - [_load_key] keeps every file there is: a file that exists keeps
    its content, the key file included, and no file other than the key
    file is touched.  It leaves the faults, the dialog answers and the
    message boxes alone, and draws from the random source exactly when no
    key file exists. *)
Theorem load_key_preserves_files (w : world) :
  let w' := snd (_load_key resolve lib w) in
  (forall (f : file) b, fs w !! f = Some b -> fs w' !! f = Some b)
  /\ (forall f : file, f <> key_file resolve -> fs w' !! f = fs w !! f)
  /\ faults w' = faults w /\ dialogs w' = dialogs w /\ shown w' = shown w
  /\ entropy w'
     = (if bool_decide (is_Some (fs w !! key_file resolve)) then entropy w
        else S (entropy w)).
Proof.
  intros w'. subst w'.
  destruct (fs w !! key_file resolve) as [c|] eqn:Hfs;
    destruct (faults w !! key_file resolve) as [k|] eqn:Hl.
  - rewrite (load_key_present_fault resolve lib w c k) by done. done.
  - rewrite (load_key_present resolve lib w c) by done. done.
  - rewrite (load_key_absent_fault resolve lib w k) by done. done.
  - rewrite (load_key_absent resolve lib w) by done. unfold key_created.
    cbn [snd fs faults dialogs shown entropy set_fs set_entropy].
    split_and!; try done.
    + intros f b Hf. rewrite lookup_insert_ne; [done|].
      intros <-. rewrite Hfs in Hf. discriminate.
    + intros f Hf. by rewrite lookup_insert_ne.
Qed.

(** X2 - A key file that cannot be opened.  The failure of the key file
    is what [_load_key] raises, with the path [KEY_FILE], and the file
    system stays as it was: a key file that exists and cannot be read is
    not replaced by a new key, and when none exists and its location
    cannot be written the draw of the new key is spent for nothing.  The
    same failure ends [_get_fernet]. *)
Theorem load_key_fault (w : world) (k : os_error) :
  faults w !! key_file resolve = Some k ->
  fst (_load_key resolve lib w) = inl (os_exn k KEY_FILE)
  /\ fst (_get_fernet resolve lib w) = inl (os_exn k KEY_FILE)
  /\ fs (snd (_load_key resolve lib w)) = fs w
  /\ fs (snd (_get_fernet resolve lib w)) = fs w
  /\ entropy (snd (_load_key resolve lib w))
     = (if bool_decide (is_Some (fs w !! key_file resolve)) then entropy w
        else S (entropy w)).
Proof.
  intros Hl. unfold _get_fernet, bind.
  destruct (fs w !! key_file resolve) as [c|] eqn:Hfs.
  - rewrite (load_key_present_fault resolve lib w c k) by done. done.
  - rewrite (load_key_absent_fault resolve lib w k) by done. done.
Qed.

(** X3 - The key [_get_fernet] hands to the cipher constructor is the key
    the key file holds afterwards: the stored one when a key file exists,
    the freshly generated one otherwise, which is written before the
    constructor sees it.  The result is the constructor's. *)
Theorem get_fernet_uses_persisted_key (w : world) :
  faults w !! key_file resolve = None ->
  let key :=
    default (generate_key lib (entropy w)) (fs w !! key_file resolve) in
  fs (snd (_get_fernet resolve lib w)) !! key_file resolve = Some key
  /\ fst (_get_fernet resolve lib w)
     = match Fernet lib key with
       | inl e => inl (LibraryError e)
       | inr c => inr c
       end.
Proof.
  intros Hl key. subst key.
  destruct (fs w !! key_file resolve) as [c|] eqn:Hfs; cbn [default].
  - rewrite (get_fernet_present resolve lib w c) by done. done.
  - rewrite (get_fernet_absent resolve lib w) by done. split; [|done].
    apply lookup_insert_eq.
Qed.

Lemma load_key_entropy (w : world) :
  entropy w <= entropy (snd (_load_key resolve lib w)) <= S (entropy w)
  /\ (is_Some (fs w !! key_file resolve) ->
      entropy (snd (_load_key resolve lib w)) = entropy w).
Proof.
  destruct (fs w !! key_file resolve) as [c|] eqn:Hfs;
    destruct (faults w !! key_file resolve) as [k|] eqn:Hl.
  - rewrite (load_key_present_fault resolve lib w c k) by done. cbn.
    split; [lia|done].
  - rewrite (load_key_present resolve lib w c) by done. cbn.
    split; [lia|done].
  - rewrite (load_key_absent_fault resolve lib w k) by done. cbn.
    split; [lia|by intros [? ?]].
  - rewrite (load_key_absent resolve lib w) by done. cbn.
    split; [lia|by intros [? ?]].
Qed.

Lemma get_fernet_entropy (w : world) :
  entropy w <= entropy (snd (_get_fernet resolve lib w)) <= S (entropy w)
  /\ (is_Some (fs w !! key_file resolve) ->
      entropy (snd (_get_fernet resolve lib w)) = entropy w).
Proof.
  pose proof (load_key_entropy w) as He.
  unfold _get_fernet, bind.
  destruct (_load_key resolve lib w) as [[e|key] w'] eqn:Hload;
    cbn [fst snd] in *; [done|].
  unfold lift. by destruct (Fernet lib key).
Qed.

End KeyStore.

Section Files.
Context {L : Type} (resolve : path -> file) (lib : library L).
Context (str : exn L -> string).

(** *** Every run, with its message boxes and resources *)

Lemma encrypt_file_run (w : world) :
  let w' := snd (encrypt_file resolve lib str w) in
  faults w' = faults w
  /\ (dialogs w' = tail (dialogs w)
      \/ (next_answer (dialogs w) <> EmptyString
          /\ dialogs w' = tail (tail (dialogs w))))
  /\ entropy w <= entropy w' <= entropy w + 2
  /\ exists ms,
       shown w' = shown w ++ ms
       /\ (next_answer (dialogs w) = EmptyString -> ms = [])
       /\ (ms = [] -> next_answer (dialogs w) = EmptyString
                      \/ next_answer (tail (dialogs w)) = EmptyString)
       /\ (ms = [] \/ ms = [encrypt_ok_box]
           \/ exists e, ms = [encrypt_error_box str e])
       /\ (ms = [encrypt_ok_box] ->
           destination_written resolve lib (encrypted lib) w w').
Proof.
  intros w'. subst w'.
  unfold encrypt_file, askopenfilename, asksaveasfilename.
  erewrite bind_ok by apply ask_dialog_eq.
  set (w1 := set_dialogs (tail (dialogs w)) w).
  destruct (bool_decide (next_answer (dialogs w) = EmptyString)) eqn:Ha1.
  { apply bool_decide_eq_true_1 in Ha1. cbn. split_and!; auto; try lia.
    exists nil. rewrite app_nil_r. split_and!; auto; done. }
  apply bool_decide_eq_false_1 in Ha1.
  unfold try_except, bind, show.
  pose proof (read_bytes_world (L:=L) resolve (next_answer (dialogs w)) w1)
    as [Hw2 Hdata].
  destruct (read_bytes _ _ w1) as [[e|data] w2]; cbn [fst snd] in *; subst w2.
  { cbn. split_and!; auto; try lia.
    exists (cons (encrypt_error_box str e) nil). split; [by f_equal|].
    split_and!; eauto; done. }
  specialize (Hdata _ eq_refl).
  pose proof (get_fernet_world resolve lib w1) as (Hk & Hl & Hd & Hs & Hkey).
  pose proof (get_fernet_entropy resolve lib w1) as [Hent _].
  change (entropy w1) with (entropy w) in Hent.
  destruct (_get_fernet resolve lib w1) as [[e|c] w3]; cbn [fst snd] in *.
  { cbn. split_and!; auto; try lia.
    exists (cons (encrypt_error_box str e) nil). split; [by f_equal|].
    split_and!; eauto; done. }
  destruct (Hkey _ eq_refl) as (key & Hkf & HF).
  unfold cipher_encrypt, bind, draw, lift.
  destruct (encrypt lib c (entropy w3) data) as [e|token] eqn:Henc; cbn.
  { split_and!; auto; try lia.
    exists (cons (encrypt_error_box str (LibraryError e)) nil).
    split; [by f_equal|].
    split_and!; eauto; done. }
  rewrite Hd. cbn.
  destruct (bool_decide (next_answer (tail (dialogs w)) = EmptyString))
    eqn:Ha2.
  { apply bool_decide_eq_true_1 in Ha2. cbn. split_and!; auto; try lia.
    exists nil. rewrite app_nil_r. split_and!; auto; done. }
  apply bool_decide_eq_false_1 in Ha2.
  unfold ret. set (w4 := set_dialogs _ _).
  pose proof (write_bytes_world (L:=L) resolve
                (next_answer (tail (dialogs w))) token w4)
    as [[Hr Hw]|(e & Hr & Hw)];
    destruct (write_bytes _ _ token w4) as [[e'|[]] w5];
    cbn [fst snd] in *; simplify_eq.
  - cbn. split_and!; auto; try lia.
    exists (cons encrypt_ok_box nil). split; [by f_equal|].
    split_and!; eauto; try done.
    intros _. exists data, key, c, token, w3. split_and!; auto.
    by exists (entropy w3).
  - cbn. split_and!; auto; try lia.
    exists (cons (encrypt_error_box str e) nil). split; [by f_equal|].
    split_and!; eauto; done.
Qed.

Lemma decrypt_file_run (w : world) :
  let w' := snd (decrypt_file resolve lib str w) in
  faults w' = faults w
  /\ (dialogs w' = tail (dialogs w)
      \/ (next_answer (dialogs w) <> EmptyString
          /\ dialogs w' = tail (tail (dialogs w))))
  /\ entropy w <= entropy w' <= entropy w + 1
  /\ (is_Some (fs w !! key_file resolve) -> entropy w' = entropy w)
  /\ exists ms,
       shown w' = shown w ++ ms
       /\ (next_answer (dialogs w) = EmptyString -> ms = [])
       /\ (ms = [] -> next_answer (dialogs w) = EmptyString
                      \/ next_answer (tail (dialogs w)) = EmptyString)
       /\ (ms = [] \/ ms = [decrypt_ok_box]
           \/ exists e, ms = [decrypt_error_box str e])
       /\ (ms = [decrypt_ok_box] ->
           destination_written resolve lib (decrypted lib) w w').
Proof.
  intros w'. subst w'.
  unfold decrypt_file, askopenfilename, asksaveasfilename.
  erewrite bind_ok by apply ask_dialog_eq.
  set (w1 := set_dialogs (tail (dialogs w)) w).
  destruct (bool_decide (next_answer (dialogs w) = EmptyString)) eqn:Ha1.
  { apply bool_decide_eq_true_1 in Ha1. cbn. split_and!; auto; try lia.
    exists nil. rewrite app_nil_r. split_and!; auto; done. }
  apply bool_decide_eq_false_1 in Ha1.
  unfold try_except, bind, show.
  pose proof (read_bytes_world (L:=L) resolve (next_answer (dialogs w)) w1)
    as [Hw2 Hdata].
  destruct (read_bytes _ _ w1) as [[e|data] w2]; cbn [fst snd] in *; subst w2.
  { cbn. split_and!; auto; try lia.
    exists (cons (decrypt_error_box str e) nil). split; [by f_equal|].
    split_and!; eauto; done. }
  specialize (Hdata _ eq_refl).
  pose proof (get_fernet_world resolve lib w1) as (Hk & Hl & Hd & Hs & Hkey).
  pose proof (get_fernet_entropy resolve lib w1) as [Hent Hent'].
  change (entropy w1) with (entropy w) in Hent, Hent'.
  change (fs w1) with (fs w) in Hent'.
  destruct (_get_fernet resolve lib w1) as [[e|c] w3]; cbn [fst snd] in *.
  { cbn. split_and!; auto; try lia.
    exists (cons (decrypt_error_box str e) nil). split; [by f_equal|].
    split_and!; eauto; done. }
  destruct (Hkey _ eq_refl) as (key & Hkf & HF).
  unfold cipher_decrypt, lift.
  destruct (decrypt lib c data) as [e|plain] eqn:Hdec; cbn.
  { split_and!; auto; try lia.
    exists (cons (decrypt_error_box str (LibraryError e)) nil).
    split; [by f_equal|].
    split_and!; eauto; done. }
  rewrite Hd. cbn.
  destruct (bool_decide (next_answer (tail (dialogs w)) = EmptyString))
    eqn:Ha2.
  { apply bool_decide_eq_true_1 in Ha2. cbn. split_and!; auto; try lia.
    exists nil. rewrite app_nil_r. split_and!; auto; done. }
  apply bool_decide_eq_false_1 in Ha2.
  unfold ret. set (w4 := set_dialogs _ _).
  pose proof (write_bytes_world (L:=L) resolve
                (next_answer (tail (dialogs w))) plain w4)
    as [[Hr Hw]|(e & Hr & Hw)];
    destruct (write_bytes _ _ plain w4) as [[e'|[]] w5];
    cbn [fst snd] in *; simplify_eq.
  - cbn. split_and!; auto; try lia.
    exists (cons decrypt_ok_box nil). split; [by f_equal|].
    split_and!; eauto; try done.
    intros _. exists data, key, c, plain, w3. split_and!; auto.
  - cbn. split_and!; auto; try lia.
    exists (cons (decrypt_error_box str e) nil). split; [by f_equal|].
    split_and!; eauto; done.
Qed.

(** *** Runs under a key file that exists *)

Lemma encrypt_file_with_key (w : world) (src dst : path)
    (rest : list string) (data key : bytes) (c : cipher lib)
    (token : bytes) :
  dialogs w = src :: dst :: rest ->
  src <> EmptyString -> dst <> EmptyString ->
  faults w !! resolve src = None -> faults w !! resolve dst = None ->
  faults w !! key_file resolve = None ->
  fs w !! resolve src = Some data ->
  fs w !! key_file resolve = Some key -> Fernet lib key = inr c ->
  encrypt lib c (entropy w) data = inr token ->
  encrypt_file resolve lib str w
  = (inr tt,
     World (<[resolve dst := token]> (fs w)) (faults w) (S (entropy w)) rest
       (shown w ++ [encrypt_ok_box])).
Proof.
  intros Hd Hs Hdst Hls Hld Hlk Hdata Hkey HF Henc.
  assert (_get_fernet resolve lib (set_dialogs (dst :: rest) w)
          = (inr c, set_dialogs (dst :: rest) w)) as Hget.
  { rewrite (get_fernet_present resolve lib _ key) by done.
    by rewrite HF. }
  by rewrite (encrypt_file_success resolve lib str w src dst rest data c _
                token Hd Hs Hdst Hls Hld Hdata Hget Henc).
Qed.

Lemma decrypt_file_with_key (w : world) (src dst : path)
    (rest : list string) (data key : bytes) (c : cipher lib)
    (plain : bytes) :
  dialogs w = src :: dst :: rest ->
  src <> EmptyString -> dst <> EmptyString ->
  faults w !! resolve src = None -> faults w !! resolve dst = None ->
  faults w !! key_file resolve = None ->
  fs w !! resolve src = Some data ->
  fs w !! key_file resolve = Some key -> Fernet lib key = inr c ->
  decrypt lib c data = inr plain ->
  decrypt_file resolve lib str w
  = (inr tt,
     World (<[resolve dst := plain]> (fs w)) (faults w) (entropy w) rest
       (shown w ++ [decrypt_ok_box])).
Proof.
  intros Hd Hs Hdst Hls Hld Hlk Hdata Hkey HF Hdec.
  assert (_get_fernet resolve lib (set_dialogs (dst :: rest) w)
          = (inr c, set_dialogs (dst :: rest) w)) as Hget.
  { rewrite (get_fernet_present resolve lib _ key) by done.
    by rewrite HF. }
  by rewrite (decrypt_file_success resolve lib str w src dst rest data c _
                plain Hd Hs Hdst Hls Hld Hdata Hget Hdec).
Qed.

(** X5 - A successful encryption under an existing key.  With a source
    that can be read, a destination that can be written and a key file
    the cipher accepts, [encrypt_file] consumes both answers and one draw,
    writes the token to the file the destination names, shows the success
    box and nothing else; the source and the key file keep their content
    unless the destination names that very file, by whatever path. *)
Theorem encrypt_file_existing_key (w : world) (src dst : path)
    (rest : list string) (data key : bytes) (c : cipher lib)
    (token : bytes) :
  dialogs w = src :: dst :: rest ->
  src <> EmptyString -> dst <> EmptyString ->
  faults w !! resolve src = None -> faults w !! resolve dst = None ->
  faults w !! key_file resolve = None ->
  fs w !! resolve src = Some data ->
  fs w !! key_file resolve = Some key -> Fernet lib key = inr c ->
  encrypt lib c (entropy w) data = inr token ->
  let r := encrypt_file resolve lib str w in
  r = (inr tt,
       World (<[resolve dst := token]> (fs w)) (faults w) (S (entropy w))
         rest (shown w ++ [encrypt_ok_box]))
  /\ fs (snd r) !! resolve dst = Some token
  /\ fs (snd r) !! resolve src
     = Some (if bool_decide (resolve dst = resolve src) then token
             else data)
  /\ fs (snd r) !! key_file resolve
     = Some (if bool_decide (resolve dst = key_file resolve) then token
             else key).
Proof.
  intros Hd Hs Hdst Hls Hld Hlk Hdata Hkey HF Henc r. subst r.
  rewrite (encrypt_file_with_key w src dst rest data key c token) by done.
  cbn [snd fs]. split_and!; [done|apply lookup_insert_eq| |].
  - case_bool_decide as Hne.
    + rewrite <- Hne. apply lookup_insert_eq.
    + by rewrite lookup_insert_ne.
  - case_bool_decide as Hne.
    + rewrite <- Hne. apply lookup_insert_eq.
    + by rewrite lookup_insert_ne.
Qed.

(** X6 - A successful decryption under an existing key.  With a token
    file that can be read, a destination that can be written, a key file
    the cipher accepts and a token the cipher opens, [decrypt_file]
    consumes both answers and no entropy, writes the plaintext to the file
    the destination names and shows the success box; the token file and
    the key file keep their content unless the destination names that
    very file, by whatever path. *)
Theorem decrypt_file_existing_key (w : world) (src dst : path)
    (rest : list string) (data key : bytes) (c : cipher lib)
    (plain : bytes) :
  dialogs w = src :: dst :: rest ->
  src <> EmptyString -> dst <> EmptyString ->
  faults w !! resolve src = None -> faults w !! resolve dst = None ->
  faults w !! key_file resolve = None ->
  fs w !! resolve src = Some data ->
  fs w !! key_file resolve = Some key -> Fernet lib key = inr c ->
  decrypt lib c data = inr plain ->
  let r := decrypt_file resolve lib str w in
  r = (inr tt,
       World (<[resolve dst := plain]> (fs w)) (faults w) (entropy w) rest
         (shown w ++ [decrypt_ok_box]))
  /\ fs (snd r) !! resolve dst = Some plain
  /\ fs (snd r) !! resolve src
     = Some (if bool_decide (resolve dst = resolve src) then plain
             else data)
  /\ fs (snd r) !! key_file resolve
     = Some (if bool_decide (resolve dst = key_file resolve) then plain
             else key).
Proof.
  intros Hd Hs Hdst Hls Hld Hlk Hdata Hkey HF Hdec r. subst r.
  rewrite (decrypt_file_with_key w src dst rest data key c plain) by done.
  cbn [snd fs]. split_and!; [done|apply lookup_insert_eq| |].
  - case_bool_decide as Hne.
    + rewrite <- Hne. apply lookup_insert_eq.
    + by rewrite lookup_insert_ne.
  - case_bool_decide as Hne.
    + rewrite <- Hne. apply lookup_insert_eq.
    + by rewrite lookup_insert_ne.
Qed.

(** X7 - A source that cannot be read.  When the selected file cannot be
    opened or does not exist, both file operations show the error box
    with that [OSError] and change nothing else: the cipher is never
    obtained, so no key file is created and no entropy is drawn, and the
    answer meant for the save dialog is not consumed. *)
Theorem unreadable_source_no_side_effect (w : world) (src : path)
    (rest : list string) :
  dialogs w = src :: rest -> src <> EmptyString ->
  is_Some (faults w !! resolve src) \/ fs w !! resolve src = None ->
  let e : exn L :=
    match faults w !! resolve src with
    | Some k => os_exn k src
    | None => FileNotFoundError src
    end in
  encrypt_file resolve lib str w
  = (inr tt,
     World (fs w) (faults w) (entropy w) rest
       (shown w ++ [encrypt_error_box str e]))
  /\ decrypt_file resolve lib str w
     = (inr tt,
        World (fs w) (faults w) (entropy w) rest
          (shown w ++ [decrypt_error_box str e])).
Proof.
  intros Hd Hs Hbad e.
  assert (read_bytes (L:=L) resolve src (set_dialogs rest w)
          = (inl e, set_dialogs rest w)) as Hread.
  { subst e. unfold read_bytes. cbn [faults fs set_dialogs].
    destruct (faults w !! resolve src) as [k|]; [done|].
    destruct Hbad as [[? ?]|Hnone]; [done|]. by rewrite Hnone. }
  split.
  - unfold encrypt_file, askopenfilename.
    erewrite bind_ok by apply ask_dialog_eq.
    rewrite Hd. cbn [next_answer tail].
    rewrite bool_decide_eq_false_2 by done.
    rewrite (try_except_err _ _ _ e (set_dialogs rest w)); [done|].
    by apply bind_err.
  - unfold decrypt_file, askopenfilename.
    erewrite bind_ok by apply ask_dialog_eq.
    rewrite Hd. cbn [next_answer tail].
    rewrite bool_decide_eq_false_2 by done.
    rewrite (try_except_err _ _ _ e (set_dialogs rest w)); [done|].
    by apply bind_err.
Qed.

(** X8 - Cancelling the save dialog on first use.  [encrypt_file] asks
    where to save only after the key was obtained and the data encrypted:
    with no key file at the start, a cancelled save dialog ends the run
    without any message box and without a destination, but the freshly
    generated key stays in the key file and two draws are spent. *)
Theorem save_cancelled_keeps_key (w : world) (src : path)
    (rest : list string) (data : bytes) (c : cipher lib) (token : bytes) :
  dialogs w = src :: rest -> next_answer rest = EmptyString ->
  src <> EmptyString -> faults w !! resolve src = None ->
  fs w !! resolve src = Some data ->
  fs w !! key_file resolve = None -> faults w !! key_file resolve = None ->
  Fernet lib (generate_key lib (entropy w)) = inr c ->
  encrypt lib c (S (entropy w)) data = inr token ->
  encrypt_file resolve lib str w
  = (inr tt,
     World (<[key_file resolve := generate_key lib (entropy w)]> (fs w))
       (faults w) (S (S (entropy w))) (tail rest) (shown w)).
Proof.
  intros Hd Hcancel Hs Hls Hdata Hkey Hlk HF Henc.
  unfold encrypt_file, askopenfilename, asksaveasfilename.
  erewrite bind_ok by apply ask_dialog_eq.
  rewrite Hd. cbn [next_answer tail].
  rewrite bool_decide_eq_false_2 by done.
  apply try_except_ok.
  erewrite bind_ok by (by apply read_bytes_ok).
  erewrite bind_ok
    by (rewrite get_fernet_absent by done; cbn [entropy set_dialogs];
        by rewrite HF).
  erewrite bind_ok; cycle 1.
  { unfold cipher_encrypt. erewrite bind_ok by reflexivity.
    unfold key_created. cbn [entropy set_fs set_entropy set_dialogs].
    rewrite Henc. reflexivity. }
  erewrite bind_ok by apply ask_dialog_eq.
  unfold key_created.
  cbn [dialogs set_fs set_entropy set_dialogs]. rewrite Hcancel.
  rewrite bool_decide_eq_true_2 by done. done.
Qed.

(** X9 - A destination that cannot be written.  Under an existing key,
    when the chosen destination cannot be opened the failed write is
    reported in the error box, as the [OSError] of the destination, and
    the file system is left as it was; the encryption's draw is spent all
    the same. *)
Theorem locked_destination_reported (w : world) (src dst : path)
    (rest : list string) (data key : bytes) (c : cipher lib)
    (k : os_error) :
  dialogs w = src :: dst :: rest ->
  src <> EmptyString -> dst <> EmptyString ->
  faults w !! resolve src = None -> faults w !! resolve dst = Some k ->
  faults w !! key_file resolve = None ->
  fs w !! resolve src = Some data ->
  fs w !! key_file resolve = Some key -> Fernet lib key = inr c ->
  (forall token,
      encrypt lib c (entropy w) data = inr token ->
      encrypt_file resolve lib str w
      = (inr tt,
         World (fs w) (faults w) (S (entropy w)) rest
           (shown w ++ [encrypt_error_box str (os_exn k dst)])))
  /\ (forall plain,
        decrypt lib c data = inr plain ->
        decrypt_file resolve lib str w
        = (inr tt,
           World (fs w) (faults w) (entropy w) rest
             (shown w ++ [decrypt_error_box str (os_exn k dst)]))).
Proof.
  intros Hd Hs Hdst Hls Hld Hlk Hdata Hkey HF.
  assert (_get_fernet resolve lib (set_dialogs (dst :: rest) w)
          = (inr c, set_dialogs (dst :: rest) w)) as Hget.
  { rewrite (get_fernet_present resolve lib _ key) by done.
    by rewrite HF. }
  split.
  - intros token Henc.
    unfold encrypt_file, askopenfilename, asksaveasfilename.
    erewrite bind_ok by apply ask_dialog_eq.
    rewrite Hd. cbn [next_answer tail].
    rewrite bool_decide_eq_false_2 by done.
    rewrite (try_except_err _ _ _ (os_exn k dst)
               (set_dialogs rest (set_entropy (S (entropy w)) w)));
      [done|].
    erewrite bind_ok by (by apply read_bytes_ok).
    erewrite bind_ok by apply Hget.
    erewrite bind_ok; cycle 1.
    { unfold cipher_encrypt. erewrite bind_ok by reflexivity.
      cbn [entropy set_dialogs]. rewrite Henc. reflexivity. }
    erewrite bind_ok by apply ask_dialog_eq.
    cbn [next_answer tail dialogs set_entropy set_dialogs].
    rewrite bool_decide_eq_false_2 by done.
    apply bind_err. by apply write_bytes_fault.
  - intros plain Hdec.
    unfold decrypt_file, askopenfilename, asksaveasfilename.
    erewrite bind_ok by apply ask_dialog_eq.
    rewrite Hd. cbn [next_answer tail].
    rewrite bool_decide_eq_false_2 by done.
    rewrite (try_except_err _ _ _ (os_exn k dst)
               (set_dialogs rest w)); [done|].
    erewrite bind_ok by (by apply read_bytes_ok).
    erewrite bind_ok by apply Hget.
    erewrite bind_ok; cycle 1.
    { unfold cipher_decrypt. rewrite Hdec. reflexivity. }
    erewrite bind_ok by apply ask_dialog_eq.
    cbn [next_answer tail dialogs set_dialogs].
    rewrite bool_decide_eq_false_2 by done.
    apply bind_err. by apply write_bytes_fault.
Qed.

(** *** What every run leaves alone *)

Lemma key_file_only_frame (w w' : world) :
  key_file_only resolve lib w w' ->
  (forall (f : file) b, fs w !! f = Some b -> fs w' !! f = Some b)
  /\ (forall f : file, f <> key_file resolve -> fs w' !! f = fs w !! f).
Proof.
  intros [->|[Hnone ->]]; [done|]. split.
  - intros f b Hf. rewrite lookup_insert_ne; [done|].
    intros <-. rewrite Hnone in Hf. discriminate.
  - intros f Hf. by rewrite lookup_insert_ne.
Qed.

Lemma outcome_frame (R : cipher lib -> bytes -> bytes -> Prop)
    (w w' : world) :
  key_file_only resolve lib w w' \/ destination_written resolve lib R w w' ->
  (forall (f : file) b,
      fs w !! f = Some b -> f <> resolve (next_answer (tail (dialogs w))) ->
      fs w' !! f = Some b)
  /\ (forall f : file,
        f <> key_file resolve ->
        f <> resolve (next_answer (tail (dialogs w))) ->
        fs w' !! f = fs w !! f)
  /\ (forall f : file, is_Some (fs w !! f) -> is_Some (fs w' !! f)).
Proof.
  intros [Hk|(data & key & c & out & wk & _ & _ & _ & Hk & _ & _ & _ & ->)];
    destruct (key_file_only_frame _ _ Hk) as [Hkeep Hother].
  - split_and!; [by auto|by auto|]. intros f [b Hf]. eauto.
  - split_and!.
    + intros f b Hf Hne. rewrite lookup_insert_ne by done. auto.
    + intros f Hf Hne. rewrite lookup_insert_ne by done. auto.
    + intros f [b Hf].
      destruct (decide (f = resolve (next_answer (tail (dialogs w)))))
        as [->|Hne].
      * rewrite lookup_insert_eq. eauto.
      * rewrite lookup_insert_ne by done. eauto.
Qed.

(** X10 - What the file operations leave alone.  In every run of
    [encrypt_file] and of [decrypt_file], a file that exists and is not
    the file that the answer to the save dialog names keeps its content -
    the source and the key file included, when that answer does not name
    them -, no file other than the key file and the one that answer names
    is touched, and no file is ever removed. *)
Theorem file_operations_frame (w : world) :
  let dst := resolve (next_answer (tail (dialogs w))) in
  let enc := snd (encrypt_file resolve lib str w) in
  let dec := snd (decrypt_file resolve lib str w) in
  (forall (f : file) b,
      fs w !! f = Some b -> f <> dst ->
      fs enc !! f = Some b /\ fs dec !! f = Some b)
  /\ (forall f : file,
        f <> key_file resolve -> f <> dst ->
        fs enc !! f = fs w !! f /\ fs dec !! f = fs w !! f)
  /\ (forall f : file,
        is_Some (fs w !! f) ->
        is_Some (fs enc !! f) /\ is_Some (fs dec !! f)).
Proof.
  intros dst enc dec.
  destruct (encrypt_file_outcome resolve lib str w) as (_ & _ & _ & He).
  destruct (decrypt_file_outcome resolve lib str w) as (_ & _ & _ & Hd).
  apply outcome_frame in He as (He1 & He2 & He3).
  apply outcome_frame in Hd as (Hd1 & Hd2 & Hd3).
  split_and!; intros; split; auto.
Qed.

(** X11 - The message boxes of a run.  Every run of [encrypt_file] and of
    [decrypt_file] keeps the boxes shown before and adds at most one: none
    when the first dialog was cancelled, and none only when a dialog was
    cancelled; otherwise the success box or the error box with the
    exception that was caught.  The success box is shown only when the
    destination was written with the result of the cipher operation. *)
Theorem file_operations_messages (w : world) :
  (exists ms,
      shown (snd (encrypt_file resolve lib str w)) = shown w ++ ms
      /\ (next_answer (dialogs w) = EmptyString -> ms = [])
      /\ (ms = [] -> next_answer (dialogs w) = EmptyString
                     \/ next_answer (tail (dialogs w)) = EmptyString)
      /\ (ms = [] \/ ms = [encrypt_ok_box]
          \/ exists e, ms = [encrypt_error_box str e])
      /\ (ms = [encrypt_ok_box] ->
          destination_written resolve lib (encrypted lib) w
            (snd (encrypt_file resolve lib str w))))
  /\ (exists ms,
        shown (snd (decrypt_file resolve lib str w)) = shown w ++ ms
        /\ (next_answer (dialogs w) = EmptyString -> ms = [])
        /\ (ms = [] -> next_answer (dialogs w) = EmptyString
                       \/ next_answer (tail (dialogs w)) = EmptyString)
        /\ (ms = [] \/ ms = [decrypt_ok_box]
            \/ exists e, ms = [decrypt_error_box str e])
        /\ (ms = [decrypt_ok_box] ->
            destination_written resolve lib (decrypted lib) w
              (snd (decrypt_file resolve lib str w)))).
Proof.
  destruct (encrypt_file_run w) as (_ & _ & _ & He).
  destruct (decrypt_file_run w) as (_ & _ & _ & _ & Hd).
  split; assumption.
Qed.

(** X12 - The resources of a run.  Every run of [encrypt_file] and of
    [decrypt_file] leaves the faults as they are and consumes one dialog
    answer, or two when the first was not a cancel.  A run of
    [encrypt_file] draws at most twice from the random source (key
    generation and encryption), a run of [decrypt_file] at most once (key
    generation), and not at all when a key file exists. *)
Theorem file_operations_resources (w : world) :
  let enc := snd (encrypt_file resolve lib str w) in
  let dec := snd (decrypt_file resolve lib str w) in
  (faults enc = faults w /\ faults dec = faults w)
  /\ (dialogs enc = tail (dialogs w)
      \/ (next_answer (dialogs w) <> EmptyString
          /\ dialogs enc = tail (tail (dialogs w))))
  /\ (dialogs dec = tail (dialogs w)
      \/ (next_answer (dialogs w) <> EmptyString
          /\ dialogs dec = tail (tail (dialogs w))))
  /\ entropy w <= entropy enc <= entropy w + 2
  /\ entropy w <= entropy dec <= entropy w + 1
  /\ (is_Some (fs w !! key_file resolve) -> entropy dec = entropy w).
Proof.
  intros enc dec.
  destruct (encrypt_file_run w) as (He1 & He2 & He3 & _).
  destruct (decrypt_file_run w) as (Hd1 & Hd2 & Hd3 & Hd4 & _).
  subst enc dec. cbn zeta in *. split_and!; try assumption; lia.
Qed.

(** *** How runs compose *)

(** X13 - The key file as a destination.  Nothing keeps the user from
    saving the encrypted file over the key file, under [KEY_FILE] or any
    other path that names that file: after such a run the key file holds
    the token, [_load_key] returns the token as the key, and the next
    cipher is whatever the constructor makes of the token. *)
Theorem key_file_as_destination (w : world) (src dst : path)
    (rest : list string) (data key : bytes) (c : cipher lib)
    (token : bytes) :
  dialogs w = src :: dst :: rest -> src <> EmptyString ->
  dst <> EmptyString -> resolve dst = key_file resolve ->
  faults w !! resolve src = None -> faults w !! key_file resolve = None ->
  fs w !! resolve src = Some data ->
  fs w !! key_file resolve = Some key -> Fernet lib key = inr c ->
  encrypt lib c (entropy w) data = inr token ->
  let w' := snd (encrypt_file resolve lib str w) in
  fs w' !! key_file resolve = Some token
  /\ _load_key resolve lib w' = (inr token, w')
  /\ fst (_get_fernet resolve lib w')
     = match Fernet lib token with
       | inl e => inl (LibraryError e)
       | inr c' => inr c'
       end.
Proof.
  intros Hd Hs Hdst Hsame Hls Hlk Hdata Hkey HF Henc w'. subst w'.
  rewrite (encrypt_file_with_key w src dst rest data key c token)
    by (done || by rewrite Hsame).
  cbn [snd]. rewrite Hsame.
  assert (fs (World (<[key_file resolve := token]> (fs w)) (faults w)
                (S (entropy w)) rest (shown w ++ [encrypt_ok_box]))
            !! key_file resolve = Some token) as Hk by apply lookup_insert_eq.
  split_and!; [done| |].
  - by apply load_key_present.
  - by rewrite (get_fernet_present resolve lib _ token).
Qed.

(** X14 - Two encryptions in a row.  Encrypting the same file twice under
    an existing key, the first time to a file that is neither the source
    nor the key file, uses two consecutive draws of the random source: the
    second destination holds the token of the later draw, the first one
    still holds the token of the earlier draw unless the second
    destination names the same file, and the key file keeps the key
    unless the second destination names it. *)
Theorem encrypt_twice_draws (w : world) (src d1 src' d2 : path)
    (rest : list string) (data key : bytes) (c : cipher lib)
    (t1 t2 : bytes) :
  dialogs w = src :: d1 :: src' :: d2 :: rest ->
  src <> EmptyString -> d1 <> EmptyString ->
  src' <> EmptyString -> d2 <> EmptyString ->
  resolve src' = resolve src ->
  faults w !! resolve src = None -> faults w !! resolve d1 = None ->
  faults w !! resolve d2 = None -> faults w !! key_file resolve = None ->
  resolve d1 <> resolve src -> resolve d1 <> key_file resolve ->
  fs w !! resolve src = Some data ->
  fs w !! key_file resolve = Some key -> Fernet lib key = inr c ->
  encrypt lib c (entropy w) data = inr t1 ->
  encrypt lib c (S (entropy w)) data = inr t2 ->
  let w2 :=
    snd (encrypt_file resolve lib str
           (snd (encrypt_file resolve lib str w))) in
  fs w2 !! resolve d2 = Some t2
  /\ fs w2 !! resolve d1
     = Some (if bool_decide (resolve d2 = resolve d1) then t2 else t1)
  /\ fs w2 !! key_file resolve
     = Some (if bool_decide (resolve d2 = key_file resolve) then t2
             else key)
  /\ entropy w2 = S (S (entropy w))
  /\ shown w2 = shown w ++ [encrypt_ok_box; encrypt_ok_box].
Proof.
  intros Hd Hs H1 Hs' H2 Hsame Hls Hl1 Hl2 Hlk Hne1 Hnek Hdata Hkey HF
    He1 He2 w2.
  subst w2.
  rewrite (encrypt_file_with_key w src d1 (src' :: d2 :: rest) data key c
             t1) by done.
  cbn [snd].
  rewrite (encrypt_file_with_key _ src' d2 rest data key c t2);
    try done; cycle 1.
  { cbn. by rewrite Hsame. }
  { cbn. rewrite Hsame. by rewrite lookup_insert_ne. }
  { cbn. by rewrite lookup_insert_ne. }
  cbn [snd fs entropy shown]. split_and!.
  - apply lookup_insert_eq.
  - case_bool_decide as Hne.
    + rewrite <- Hne. apply lookup_insert_eq.
    + rewrite lookup_insert_ne by done. apply lookup_insert_eq.
  - case_bool_decide as Hne.
    + rewrite <- Hne. apply lookup_insert_eq.
    + by rewrite !lookup_insert_ne.
  - done.
  - by rewrite <- app_assoc.
Qed.

End Files.
End AppMore.

(* ===================================================================== *)
(** ** The program with the [Fernet] class of the package *)
(* ===================================================================== *)

Module PackageSpec.
Import Cipher App Model Package AppFacts.

Section Rejection.
Variable P : primitives.




End Rejection.

Section Program.
Context {L : Type} (resolve : path -> file) (lib : library L).
Context (str : exn L -> string).


End Program.

Section Claim.
Variable resolve : path -> file.
Variables (urandom : nat -> nat -> bytes) (clock : nat -> N).


End Claim.



End PackageSpec.

(* ===================================================================== *)
(** ** Properties of the window and the session *)
(* ===================================================================== *)

Module GuiFacts.
Import App Gui AppFacts AppMore.

Section Window.
Context {L : Type} (resolve : path -> file) (lib : library L).
Context (str : exn L -> string).
Context (photo : Type) (PhotoImage : bytes -> L + photo).

(** *** Loading the icons *)

Lemma read_bytes_missing (p : path) (w : world) :
  faults w !! resolve p = None -> fs w !! resolve p = None ->
  read_bytes (L:=L) resolve p w = (inl (FileNotFoundError p), w).
Proof. intros Hl Hfs. unfold read_bytes. by rewrite Hl, Hfs. Qed.

(** One turn of the loop: the world is only read; an icon that is not
    found is skipped, any other failure leaves the loop. *)
Lemma icon_buttons_cons (platform url : string)
    (rest : list (string * string)) (w : world) :
  icon_buttons resolve photo PhotoImage ((platform, url) :: rest) w
  = match faults w !! resolve (icon_path platform) with
    | Some ENOENT => icon_buttons resolve photo PhotoImage rest w
    | Some k => (inl (os_exn k (icon_path platform)), w)
    | None =>
        match fs w !! resolve (icon_path platform) with
        | None => icon_buttons resolve photo PhotoImage rest w
        | Some icon =>
            match PhotoImage icon with
            | inl e => (inl (LibraryError e), w)
            | inr ph =>
                match icon_buttons resolve photo PhotoImage rest w with
                | (inr others, w') =>
                    (inr (icon_button photo url ph :: others), w')
                | (inl e, w') => (inl e, w')
                end
            end
        end
    end.
Proof.
  cbn [icon_buttons].
  destruct (faults w !! resolve (icon_path platform)) as [k|] eqn:Hl.
  { assert (read_bytes (L:=L) resolve (icon_path platform) w
            = (inl (os_exn k (icon_path platform)), w)) as Hread
      by (by apply read_bytes_fault).
    destruct k as [| |n].
    - erewrite bind_ok; cycle 1.
      { rewrite (try_except_err _ _ _
                   (FileNotFoundError (icon_path platform)) w);
          [reflexivity|].
        by apply bind_err. }
      unfold bind, ret.
      by destruct (icon_buttons _ _ _ rest w) as [[?|?] ?].
    - apply bind_err.
      rewrite (try_except_err _ _ _
                 (PermissionError (icon_path platform)) w); [done|].
      by apply bind_err.
    - apply bind_err.
      rewrite (try_except_err _ _ _ (OSError n (icon_path platform)) w);
        [done|].
      by apply bind_err. }
  destruct (fs w !! resolve (icon_path platform)) as [icon|] eqn:Hfs.
  - destruct (PhotoImage icon) as [e|ph] eqn:HP.
    + apply bind_err.
      rewrite (try_except_err _ _ _ (LibraryError e) w); [done|].
      erewrite bind_ok by (by apply read_bytes_ok).
      apply bind_err. by rewrite HP.
    + erewrite bind_ok; cycle 1.
      { apply try_except_ok.
        erewrite bind_ok by (by apply read_bytes_ok).
        erewrite bind_ok by (by rewrite HP). reflexivity. }
      unfold bind, ret.
      by destruct (icon_buttons _ _ _ rest w) as [[?|?] ?].
  - erewrite bind_ok; cycle 1.
    { rewrite (try_except_err _ _ _ (FileNotFoundError (icon_path platform))
                 w); [reflexivity|].
      apply bind_err. by apply read_bytes_missing. }
    unfold bind, ret.
    by destruct (icon_buttons _ _ _ rest w) as [[?|?] ?].
Qed.

Lemma icon_buttons_world (links : list (string * string)) (w : world) :
  snd (icon_buttons resolve photo PhotoImage links w) = w.
Proof.
  induction links as [|[platform url] rest IH]; [done|].
  rewrite icon_buttons_cons.
  destruct (faults w !! _) as [[| |n]|]; [done|done|done|].
  destruct (fs w !! _) as [icon|]; [|done].
  destruct (PhotoImage icon) as [e|ph]; [done|].
  by destruct (icon_buttons _ _ _ rest w) as [[?|?] ?].
Qed.

Lemma frame_commands (options pack : list (string * value))
    (children : list (widget photo)) :
  widget_commands photo (Frame photo options pack children)
  = flat_map (widget_commands photo) children.
Proof.
  cbn [widget_commands].
  induction children as [|x l IH]; [done|]. cbn [flat_map]. by rewrite IH.
Qed.

Lemma icon_button_commands (url : string) (ph : photo) :
  widget_commands photo (icon_button photo url ph) = [run_open_link url].
Proof. done. Qed.

(** When every icon file can be opened and every icon that exists can be
    decoded, the loop makes one button per link whose icon exists. *)
Lemma icon_buttons_ok (links : list (string * string)) (w : world) :
  (forall link,
      link ∈ links -> faults w !! resolve (icon_path (fst link)) = None) ->
  (forall link icon,
      link ∈ links -> fs w !! resolve (icon_path (fst link)) = Some icon ->
      exists ph, PhotoImage icon = inr ph) ->
  exists icons,
    icon_buttons resolve photo PhotoImage links w = (inr icons, w)
    /\ flat_map (widget_commands photo) icons
       = map (fun link => run_open_link (snd link))
           (available_links resolve w links).
Proof.
  induction links as [|[platform url] rest IH]; intros Hl Hdec.
  { by exists []. }
  destruct IH as (others & Hrest & Hcmds).
  { intros link Hin. apply Hl. by right. }
  { intros link icon Hin. apply Hdec. by right. }
  rewrite icon_buttons_cons.
  pose proof (Hl (platform, url)) as Hhere. cbn [fst] in Hhere.
  rewrite Hhere by (by left).
  unfold available_links. cbn [List.filter fst].
  destruct (fs w !! resolve (icon_path platform)) as [icon|] eqn:Hfs.
  - destruct (Hdec (platform, url) icon) as [ph HP]; [by left|done|].
    rewrite HP, Hrest. exists (icon_button photo url ph :: others).
    split; [done|].
    rewrite bool_decide_eq_true_2 by done.
    cbn [flat_map map snd]. by rewrite Hcmds.
  - rewrite Hrest. exists others. split; [done|].
    rewrite bool_decide_eq_false_2 by (by intros [? ?]). done.
Qed.

(** An icon file that cannot be opened, for another reason than not
    being found, ends the loop with an exception, which is not a
    [FileNotFoundError]. *)
Lemma icon_buttons_locked (links : list (string * string)) (w : world) :
  (exists link k,
      link ∈ links /\ faults w !! resolve (icon_path (fst link)) = Some k
      /\ k <> ENOENT) ->
  exists e,
    icon_buttons resolve photo PhotoImage links w = (inl e, w)
    /\ (forall p, e <> FileNotFoundError p).
Proof.
  induction links as [|[platform url] rest IH];
    intros (link & k & Hin & Hlocked & Hk).
  { by apply elem_of_nil in Hin. }
  rewrite icon_buttons_cons.
  destruct (decide (link = (platform, url))) as [->|Hother].
  { cbn [fst] in Hlocked. rewrite Hlocked.
    destruct k as [| |n]; [done| |]; eexists; split; done. }
  destruct IH as (e & Hrest & Hne).
  { apply elem_of_cons in Hin as [->|Hin]; [done|]. eauto. }
  destruct (faults w !! resolve (icon_path platform)) as [[| |n]|].
  - eauto.
  - eexists. split; done.
  - eexists. split; done.
  - destruct (fs w !! resolve (icon_path platform)) as [icon|]; [|eauto].
    destruct (PhotoImage icon) as [e'|ph].
    + eexists. split; done.
    + rewrite Hrest. eauto.
Qed.

(** *** The window *)

(** X15 - Building the window only reads.  [_build_gui] leaves the world
    exactly as it found it, whether it succeeds or raises, and so does a
    session in which no button is clicked: starting the program and
    closing it creates no key file; the key is generated by the first
    file operation that obtains the cipher. *)
Theorem build_gui_leaves_world (d : desktop) :
  snd (_build_gui resolve photo PhotoImage (sys d)) = sys d
  /\ sys (snd (main resolve lib str photo PhotoImage [] d)) = sys d
  /\ browser (snd (main resolve lib str photo PhotoImage [] d)) = browser d
  /\ fs (sys (snd (main resolve lib str photo PhotoImage [] d)))
       !! key_file resolve
     = fs (sys d) !! key_file resolve.
Proof.
  assert (snd (_build_gui resolve photo PhotoImage (sys d)) = sys d) as Hw.
  { unfold _build_gui, bind.
    pose proof (icon_buttons_world SOCIAL_LINKS (sys d))
      as Hicons.
    by destruct (icon_buttons _ _ _ SOCIAL_LINKS (sys d)) as [[?|?] ?]. }
  unfold main.
  destruct (_build_gui resolve photo PhotoImage (sys d)) as [[e|app] w];
    cbn [snd] in Hw; subst w; done.
Qed.

(** X16 - The buttons of the window.  When every icon file can be opened
    and every icon file that exists can be decoded, [_build_gui] succeeds;
    the buttons of the window are, in order, the one bound to
    [encrypt_file], the one bound to [decrypt_file], and one button per
    platform of [SOCIAL_LINKS] whose icon file exists, each bound to
    [open_link] on the URL of its own platform.  Platforms without an icon
    file are skipped. *)
Theorem build_gui_commands (w : world) :
  (forall link,
      link ∈ SOCIAL_LINKS ->
      faults w !! resolve (icon_path (fst link)) = None) ->
  (forall link icon,
      link ∈ SOCIAL_LINKS ->
      fs w !! resolve (icon_path (fst link)) = Some icon ->
      exists ph, PhotoImage icon = inr ph) ->
  exists app,
    _build_gui resolve photo PhotoImage w = (inr app, w)
    /\ window_commands photo app
       = run_encrypt_file :: run_decrypt_file
           :: map (fun link => run_open_link (snd link))
                (available_links resolve w SOCIAL_LINKS).
Proof.
  intros Hl Hdec.
  destruct (icon_buttons_ok SOCIAL_LINKS w Hl Hdec)
    as (icons & Hicons & Hcmds).
  unfold _build_gui. erewrite bind_ok by apply Hicons.
  eexists. split; [reflexivity|].
  unfold window_commands. cbn [content flat_map].
  rewrite app_nil_r.
  etransitivity; [apply frame_commands|].
  cbn [flat_map]. rewrite frame_commands, Hcmds.
  cbn [widget_commands app]. by rewrite app_nil_r.
Qed.

(** X17 - An icon that cannot be opened stops the program.  Only
    [FileNotFoundError] is handled while the icons are loaded: when the
    icon file of any platform of [SOCIAL_LINKS] cannot be opened for
    another reason (a [PermissionError], say), [_build_gui] raises an
    exception that is not a [FileNotFoundError], [main] raises it too, and
    no click is ever served: the desktop stays as it was. *)
Theorem locked_icon_aborts (d : desktop) (clicks : list nat) :
  (exists link k,
      link ∈ SOCIAL_LINKS
      /\ faults (sys d) !! resolve (icon_path (fst link)) = Some k
      /\ k <> ENOENT) ->
  exists e,
    fst (_build_gui resolve photo PhotoImage (sys d)) = inl e
    /\ (forall p, e <> FileNotFoundError p)
    /\ fst (main resolve lib str photo PhotoImage clicks d) = inl e
    /\ sys (snd (main resolve lib str photo PhotoImage clicks d)) = sys d
    /\ browser (snd (main resolve lib str photo PhotoImage clicks d))
       = browser d.
Proof.
  intros Hlocked.
  destruct (icon_buttons_locked SOCIAL_LINKS (sys d) Hlocked)
    as (e & Hicons & Hne).
  assert (_build_gui resolve photo PhotoImage (sys d) = (inl e, sys d))
    as Hgui.
  { unfold _build_gui. by apply bind_err. }
  exists e. unfold main. rewrite Hgui. done.
Qed.

(** *** The session *)

Lemma keeps_refl (d : desktop) : keeps resolve d d.
Proof. unfold keeps. split_and!; done. Qed.

Lemma keeps_trans (d1 d2 d3 : desktop) :
  keeps resolve d1 d2 -> keeps resolve d2 d3 -> keeps resolve d1 d3.
Proof.
  intros (Hl1 & Hd1 & He1 & Hs1 & Hb1 & Hf1 & Hc1)
         (Hl2 & Hd2 & He2 & Hs2 & Hb2 & Hf2 & Hc2).
  unfold keeps. split_and!.
  - congruence.
  - by etrans.
  - lia.
  - by etrans.
  - by etrans.
  - auto.
  - intros f b Hf Hnot. apply Hc2; [by apply Hc1|].
    intros a Hin. apply Hnot. by eapply elem_of_suffix.
Qed.

Lemma suffix_tail {A} (l : list A) : tail l `suffix_of` l.
Proof. destruct l; [done|]. by apply suffix_cons_r. Qed.

Lemma next_answer_elem (l : list string) :
  next_answer l <> EmptyString -> next_answer l ∈ l.
Proof. destruct l as [|a l]; [done|]. intros _. by left. Qed.

(** One file operation, seen from the desktop. *)
Lemma file_operation_keeps (R : cipher lib -> bytes -> bytes -> Prop)
    (w w' : world) :
  faults w' = faults w ->
  dialogs w' = tail (dialogs w)
  \/ (next_answer (dialogs w) <> EmptyString
      /\ dialogs w' = tail (tail (dialogs w))) ->
  entropy w <= entropy w' ->
  (exists ms, shown w' = shown w ++ ms) ->
  (next_answer (tail (dialogs w)) = EmptyString ->
   key_file_only resolve lib w w') ->
  key_file_only resolve lib w w'
  \/ destination_written resolve lib R w w' ->
  forall pages, keeps resolve (Desktop w pages) (Desktop w' pages).
Proof.
  intros Hl Hd He (ms & Hs) Hcancel Hout pages.
  unfold keeps. cbn [sys browser]. split_and!; [done| |done| |done| |].
  - destruct Hd as [->|[_ ->]].
    + apply suffix_tail.
    + etrans; apply suffix_tail.
  - rewrite Hs. by apply prefix_app_r.
  - by apply (outcome_frame resolve lib R) in Hout as (_ & _ & Hsome).
  - intros f b Hf Hnot.
    destruct (decide (next_answer (tail (dialogs w)) = EmptyString))
      as [Hc|Hc].
    + by apply (key_file_only_frame resolve lib w w' (Hcancel Hc)).
    + apply (outcome_frame resolve lib R) in Hout as (Hkeep & _ & _).
      apply Hkeep; [done|]. intros ->.
      apply (Hnot (next_answer (tail (dialogs w)))); [|done].
      apply next_answer_elem in Hc.
      destruct (dialogs w) as [|a l]; [done|]. by right.
Qed.

Lemma invoke_keeps (c : command) (d : desktop) :
  keeps resolve d (invoke resolve lib str c d).
Proof.
  destruct d as [w pages]. destruct c as [| |url]; cbn [invoke sys browser].
  - destruct (encrypt_file_run resolve lib str w)
      as (Hl & Hd & He & ms & Hs & _).
    destruct (encrypt_file_outcome resolve lib str w)
      as (_ & _ & Hc & Hout).
    eapply file_operation_keeps; eauto. lia.
  - destruct (decrypt_file_run resolve lib str w)
      as (Hl & Hd & He & _ & ms & Hs & _).
    destruct (decrypt_file_outcome resolve lib str w)
      as (_ & _ & Hc & Hout).
    eapply file_operation_keeps; eauto. lia.
  - unfold open_link, keeps. cbn [sys browser].
    split_and!; try done. by apply prefix_app_r.
Qed.

Lemma mainloop_keeps (app : window photo) (clicks : list nat)
    (d : desktop) :
  keeps resolve d (mainloop resolve lib str photo app clicks d).
Proof.
  unfold mainloop. revert d.
  induction clicks as [|i clicks IH]; intros d; [apply keeps_refl|].
  cbn [fold_left]. eapply keeps_trans; [|apply IH].
  destruct (window_commands photo app !! i) as [c|];
    [apply invoke_keeps|apply keeps_refl].
Qed.

(** X18 - What a whole session keeps.  Whatever buttons the user clicks,
    and in whatever order, when the session ends: the faults are the
    same; no file has been removed; every file that no answer to a dialog
    names, by whatever path - the key file included -, has the content it
    started with; the message boxes and browser pages from before are
    still there, in order, followed by the new ones; and the answers left
    are a suffix of the answers there were. *)
Theorem session_keeps (clicks : list nat) (d : desktop) :
  let d' := snd (main resolve lib str photo PhotoImage clicks d) in
  faults (sys d') = faults (sys d)
  /\ (forall f : file,
        is_Some (fs (sys d) !! f) -> is_Some (fs (sys d') !! f))
  /\ (forall (f : file) b,
        fs (sys d) !! f = Some b ->
        (forall a, a ∈ dialogs (sys d) -> resolve a <> f) ->
        fs (sys d') !! f = Some b)
  /\ (forall k,
        fs (sys d) !! key_file resolve = Some k ->
        (forall a, a ∈ dialogs (sys d) -> resolve a <> key_file resolve) ->
        fs (sys d') !! key_file resolve = Some k)
  /\ shown (sys d) `prefix_of` shown (sys d')
  /\ browser d `prefix_of` browser d'
  /\ dialogs (sys d') `suffix_of` dialogs (sys d)
  /\ entropy (sys d) <= entropy (sys d').
Proof.
  intros d'.
  assert (keeps resolve d d') as (Hl & Hd & He & Hs & Hb & Hf & Hc).
  { subst d'. unfold main.
    pose proof (icon_buttons_world SOCIAL_LINKS (sys d)) as Hicons.
    assert (snd (_build_gui resolve photo PhotoImage (sys d)) = sys d)
      as Hw.
    { unfold _build_gui, bind.
      by destruct (icon_buttons _ _ _ SOCIAL_LINKS (sys d)) as [[?|?] ?]. }
    destruct (_build_gui resolve photo PhotoImage (sys d)) as [[e|app] w];
      cbn [snd] in *; subst w.
    - destruct d; apply keeps_refl.
    - eapply keeps_trans; [|apply mainloop_keeps].
      destruct d; apply keeps_refl. }
  split_and!; auto.
Qed.

End Window.
End GuiFacts.

(* ===================================================================== *)
(** ** The further properties on concrete worlds *)
(* ===================================================================== *)

Module Runs.
Import Cipher App Model Gui AppMore GuiFacts.

Lemma load_key_fault_witness :
  fst (_load_key abspath toy_library (keyed [] {[the_key_file := EACCES]}))
  = inl (PermissionError "secret.key")
  /\ fs (snd (_load_key abspath toy_library
                (keyed [] {[the_key_file := EACCES]})))
       !! the_key_file
     = Some test_key3.
Proof.
  destruct (load_key_fault abspath toy_library
              (keyed [] {[the_key_file := EACCES]}) EACCES)
    as (Hfail & _ & Hfs & _); [reflexivity|].
  split; [exact Hfail|]. rewrite Hfs. reflexivity.
Defined.

Lemma get_fernet_uses_persisted_key_witness :
  fs (snd (_get_fernet abspath toy_library (unkeyed []))) !! the_key_file
  = Some test_key3
  /\ fst (_get_fernet abspath toy_library (unkeyed [])) = inr test_key3.
Proof.
  apply (get_fernet_uses_persisted_key abspath toy_library (unkeyed [])).
  reflexivity.
Defined.

Lemma encrypt_file_existing_key_witness :
  fs (snd (encrypt_file abspath toy_library toy_str
             (keyed ["/img/a.png"; "/img/a.enc"] ∅)))
    !! a_enc
  = Some token3.
Proof.
  destruct (encrypt_file_existing_key abspath toy_library toy_str
              (keyed ["/img/a.png"; "/img/a.enc"] ∅) "/img/a.png"
              "/img/a.enc" [] png_magic test_key3 test_key3 token3)
    as (_ & Hdst & _);
    [ reflexivity | discriminate | discriminate | reflexivity
    | reflexivity | reflexivity | reflexivity | reflexivity
    | reflexivity | reflexivity | exact Hdst ].
Defined.

Lemma decrypt_file_existing_key_witness :
  fs (snd (decrypt_file abspath toy_library toy_str
             (keyed_token ["/img/a.enc"; "/img/b.png"] ∅)))
    !! File "/img/b.png"
  = Some png_magic.
Proof.
  destruct (decrypt_file_existing_key abspath toy_library toy_str
              (keyed_token ["/img/a.enc"; "/img/b.png"] ∅) "/img/a.enc"
              "/img/b.png" [] token3 test_key3 test_key3 png_magic)
    as (_ & Hdst & _);
    [ reflexivity | discriminate | discriminate | reflexivity
    | reflexivity | reflexivity | reflexivity | reflexivity
    | reflexivity | reflexivity | exact Hdst ].
Defined.

Lemma unreadable_source_no_side_effect_witness :
  encrypt_file abspath toy_library toy_str
    (unkeyed ["/img/b.png"; "/img/b.enc"])
  = (inr tt,
     World {[a_png := png_magic]} ∅ 0 ["/img/b.enc"]
       [encrypt_error_box toy_str (FileNotFoundError "/img/b.png")]).
Proof.
  destruct (unreadable_source_no_side_effect abspath toy_library toy_str
              (unkeyed ["/img/b.png"; "/img/b.enc"]) "/img/b.png"
              ["/img/b.enc"])
    as [Henc _];
    [ reflexivity | discriminate | right; reflexivity | exact Henc ].
Defined.

Lemma save_cancelled_keeps_key_witness :
  encrypt_file abspath toy_library toy_str (unkeyed ["/img/a.png"])
  = (inr tt,
     World (<[the_key_file := test_key3]> {[a_png := png_magic]}) ∅ 2 []
       []).
Proof.
  apply (save_cancelled_keeps_key abspath toy_library toy_str
           (unkeyed ["/img/a.png"]) "/img/a.png" [] png_magic test_key3
           token3');
    [ reflexivity | reflexivity | discriminate | reflexivity
    | reflexivity | reflexivity | reflexivity | reflexivity
    | reflexivity ].
Defined.

Lemma locked_destination_reported_witness :
  encrypt_file abspath toy_library toy_str
    (keyed ["/img/a.png"; "/gone/a.enc"] {[File "/gone/a.enc" := ENOENT]})
  = (inr tt,
     World (<[the_key_file := test_key3]> {[a_png := png_magic]})
       {[File "/gone/a.enc" := ENOENT]} 1 []
       [encrypt_error_box toy_str (FileNotFoundError "/gone/a.enc")]).
Proof.
  destruct (locked_destination_reported abspath toy_library toy_str
              (keyed ["/img/a.png"; "/gone/a.enc"]
                 {[File "/gone/a.enc" := ENOENT]})
              "/img/a.png" "/gone/a.enc" [] png_magic test_key3 test_key3
              ENOENT) as [Henc _];
    [ reflexivity | discriminate | discriminate | reflexivity
    | reflexivity | reflexivity | reflexivity | reflexivity
    | reflexivity | ].
  apply (Henc token3). reflexivity.
Defined.

(** The save dialog answers with the full path name of the key file,
    which the program itself opens as [secret.key]. *)
Lemma key_file_as_destination_witness :
  _load_key abspath toy_library
    (snd (encrypt_file abspath toy_library toy_str
            (keyed ["/img/a.png"; "/app/secret.key"] ∅)))
  = (inr token3,
     snd (encrypt_file abspath toy_library toy_str
            (keyed ["/img/a.png"; "/app/secret.key"] ∅)))
  /\ fst (_get_fernet abspath toy_library
            (snd (encrypt_file abspath toy_library toy_str
                    (keyed ["/img/a.png"; "/app/secret.key"] ∅))))
     = inl (LibraryError CorruptKeyError).
Proof.
  destruct (key_file_as_destination abspath toy_library toy_str
              (keyed ["/img/a.png"; "/app/secret.key"] ∅) "/img/a.png"
              "/app/secret.key" [] png_magic test_key3 test_key3 token3)
    as (_ & Hload & Hget);
    [ reflexivity | discriminate | discriminate | reflexivity
    | reflexivity | reflexivity | reflexivity | reflexivity
    | reflexivity | reflexivity | ].
  split; [exact Hload | exact Hget].
Defined.

Lemma encrypt_twice_draws_witness :
  fs (snd (encrypt_file abspath toy_library toy_str
             (snd (encrypt_file abspath toy_library toy_str
                     (keyed ["/img/a.png"; "/img/a.enc"; "/img/a.png";
                             "/img/b.enc"] ∅)))))
    !! File "/img/b.enc"
  = Some token3'
  /\ token3 <> token3'.
Proof.
  destruct (encrypt_twice_draws abspath toy_library toy_str
              (keyed ["/img/a.png"; "/img/a.enc"; "/img/a.png";
                      "/img/b.enc"] ∅)
              "/img/a.png" "/img/a.enc" "/img/a.png" "/img/b.enc" []
              png_magic test_key3 test_key3 token3 token3')
    as (Hsecond & _);
    [ reflexivity | discriminate | discriminate | discriminate
    | discriminate | reflexivity
    | reflexivity | reflexivity | reflexivity | reflexivity
    | discriminate | discriminate | reflexivity | reflexivity
    | reflexivity | reflexivity | reflexivity | ].
  split; [exact Hsecond | discriminate].
Defined.

Lemma build_gui_commands_witness :
  exists app,
    _build_gui abspath bytes toy_photo (sys d_icons)
    = (inr app, sys d_icons)
    /\ window_commands bytes app
       = [ run_encrypt_file; run_decrypt_file;
           run_open_link "https://github.com/Ninja-Atmos";
           run_open_link "https://www.facebook.com/Suvam0961/" ].
Proof.
  apply (build_gui_commands abspath bytes toy_photo (sys d_icons)).
  - intros link _. apply lookup_empty.
  - intros link icon Hin Hfs.
    repeat (apply elem_of_cons in Hin as [->|Hin]);
      [ | | | | by apply elem_of_nil in Hin ];
      vm_compute in Hfs; try discriminate;
      injection Hfs as <-; by eexists.
Defined.

Lemma locked_icon_aborts_witness :
  exists e,
    fst (_build_gui abspath bytes toy_photo (sys d_locked)) = inl e
    /\ (forall p, e <> FileNotFoundError p)
    /\ fst (main abspath toy_library toy_str bytes toy_photo [0; 1]
              d_locked)
       = inl e
    /\ sys (snd (main abspath toy_library toy_str bytes toy_photo [0; 1]
                   d_locked))
       = sys d_locked
    /\ browser
         (snd (main abspath toy_library toy_str bytes toy_photo [0; 1]
                 d_locked))
       = browser d_locked.
Proof.
  apply (locked_icon_aborts abspath toy_library toy_str bytes toy_photo
           d_locked [0; 1]).
  exists ("linkedin", "https://www.linkedin.com/in/suvam0961/"), EACCES.
  split_and!; [|reflexivity|discriminate].
  apply elem_of_cons. right. apply elem_of_cons. by left.
Defined.

End Runs.
